(** * Field configuration loader: [useFieldsConfig] and [parseYamlConfig]

    A shallow embedding of the sensitive-data form configuration loader
    (the hook [useFieldsConfig] and the parser [parseYamlConfig]) together
    with the properties its specification states about it.

    Layout: the JavaScript values the YAML library hands to the parser, the
    field definition classes, the parser, a store-based rendering of the
    localisation step (to talk about mutation), the hook as a transition
    system; then the theorems. *)

From stdpp Require Import base list strings gmap pretty.

Open Scope string_scope.
Open Scope list_scope.
Open Scope nat_scope.

Set Warnings "-register-all,-clear-no-such-hyp".

(** ** JavaScript values

    What [parse] of the [yaml] package returns under the core schema: scalars,
    sequences (arrays) and mappings (plain objects).  Numbers are kept to the
    integers; a property list is in the order [Object.entries] enumerates it. *)

Inductive value : Type :=
  | JUndefined
  | JNull
  | JBool (b : bool)
  | JNum (n : Z)
  | JStr (s : string)
  | JArr (elems : list value)
  | JObj (props : list (string * value)).

Abbreviation props := (list (string * value)).

(** Errors.  Every [js_error] is an instance of [Error]; [ThrowValue] is a
    thrown value that is not. *)

Inductive error_class : Type :=
  | GenericError
  | TypeError
  | ConfigurationError
  | ErrorSubclass (className : string).

Record js_error : Type := mkError { err_class : error_class; err_message : string }.

Inductive thrown : Type :=
  | ThrowError (e : js_error)
  | ThrowValue (v : value).

Definition throw {A} (c : error_class) (msg : string) : thrown + A :=
  inl (ThrowError (mkError c msg)).

Notation "'let!' x ':=' e 'in' k" :=
  (match e with inl t => inl t | inr x => k end)
  (at level 10, x pattern, e at level 100, k at level 200, only parsing).

(** [ToBoolean]: the falsy values are [undefined], [null], [false], [0] and
    the empty string. *)
Definition ToBoolean (v : value) : bool :=
  match v with
  | JUndefined | JNull => false
  | JBool b => b
  | JNum n => negb (n =? 0)%Z
  | JStr s => negb (String.eqb s "")
  | JArr _ | JObj _ => true
  end.

(** [typeof v === "object"] *)
Definition typeof_object (v : value) : bool :=
  match v with
  | JNull | JArr _ | JObj _ => true
  | _ => false
  end.

(** [Array.isArray(v)] *)
Definition isArray (v : value) : bool :=
  match v with JArr _ => true | _ => false end.

Fixpoint lookup_prop (k : string) (ps : props) : option value :=
  match ps with
  | [] => None
  | (k', v) :: ps => if String.eqb k' k then Some v else lookup_prop k ps
  end.

(** [o[k]] on a property list: the own property, or [undefined]. *)
Definition get_prop (ps : props) (k : string) : value :=
  default JUndefined (lookup_prop k ps).

(** [o[k] = v]: overwrite in place, or append a new property. *)
Fixpoint set_prop (ps : props) (k : string) (v : value) : props :=
  match ps with
  | [] => [(k, v)]
  | (k', v') :: ps =>
      if String.eqb k' k then (k', v) :: ps else (k', v') :: set_prop ps k v
  end.

Definition indexed (xs : list value) : props :=
  imap (λ i x, (pretty i, x)) xs.

(** The characters of a string, one per byte (ASCII text). *)
Definition chars (s : string) : list value :=
  (λ c, JStr (String c "")) <$> String.list_ascii_of_string s.

(** The own enumerable string-keyed properties, as copied by object spread
    [{...v}]: nothing for [null], [undefined], numbers and booleans, the
    index properties for arrays and strings. *)
Definition own_props (v : value) : props :=
  match v with
  | JObj ps => ps
  | JArr xs => indexed xs
  | JStr s => indexed (chars s)
  | _ => []
  end.

(** Property read [v[k]] on a receiver that is neither [null] nor
    [undefined] (every read below is guarded by a truthiness test of its
    receiver).  Own properties only: [k] is a field name or a language code,
    not the name of a prototype member. *)
Definition Get (v : value) (k : string) : value :=
  match v with
  | JObj ps => get_prop ps k
  | JArr xs =>
      if String.eqb k "length" then JNum (Z.of_nat (length xs))
      else get_prop (indexed xs) k
  | JStr s =>
      if String.eqb k "length" then JNum (Z.of_nat (String.length s))
      else get_prop (indexed (chars s)) k
  | _ => JUndefined
  end.

(** Optional chaining [v?.k] *)
Definition GetOpt (v : value) (k : string) : value :=
  match v with
  | JUndefined | JNull => JUndefined
  | _ => Get v k
  end.

(** [Object.entries(v)] *)
Definition Object_entries (v : value) : thrown + props :=
  match v with
  | JUndefined | JNull => throw TypeError "Cannot convert undefined or null to object"
  | _ => inr (own_props v)
  end.

(** [ToString], as applied to the holes of a template literal.  A plain
    object prints through [Object.prototype.toString] unless an own
    [toString] property (never callable in parsed YAML) shadows it; an array
    prints through [join]. *)
Fixpoint ToString (v : value) : thrown + string :=
  match v with
  | JUndefined => inr "undefined"
  | JNull => inr "null"
  | JBool true => inr "true"
  | JBool false => inr "false"
  | JNum n => inr (pretty n)
  | JStr s => inr s
  | JArr xs =>
      let elem x :=
        match x with
        | JUndefined | JNull => inr ""
        | _ => ToString x
        end in
      (fix join (xs : list value) : thrown + string :=
         match xs with
         | [] => inr ""
         | [x] => elem x
         | x :: rest =>
             let! s := elem x in
             let! r := join rest in
             inr (s +:+ "," +:+ r)
         end) xs
  | JObj ps =>
      match lookup_prop "toString" ps with
      | Some _ => throw TypeError "Cannot convert object to primitive value"
      | None => inr "[object Object]"
      end
  end.

(** ** The field definition classes ([./types])

    Modelled from the spec: the module [./types] ([FieldType] and the three
    [FieldDefinition] classes) is not among the sources.  The enum members
    are the strings of the schema format; a field definition carries the
    common attributes [name], [dataKey], [label], [type], the resolved
    option values of the selecting variants and the validation object; each
    constructor checks its required attributes and fails with a descriptive
    error otherwise. *)

Module Types.

Inductive FieldType : Type := String | Enum | MultipleSelect.

Definition FieldType_value (t : FieldType) : string :=
  match t with
  | String => "STRING"
  | Enum => "ENUM"
  | MultipleSelect => "MULTIPLE_SELECT"
  end.

Record FieldDefinition : Type := mkField {
  name : string;
  dataKey : string;
  type : FieldType;
  label : string;
  values : list string;
  validation : value;
}.

Definition as_string (v : value) : option string :=
  match v with JStr s => Some s | _ => None end.

(** A non-empty ordered sequence of strings. *)
Definition as_options (v : value) : option (list string) :=
  match v with
  | JArr (x :: xs) => mapM as_string (x :: xs)
  | _ => None
  end.

Definition malformed {A} (field attribute : string) : thrown + A :=
  throw GenericError ("Field '" +:+ field +:+ "' has no valid " +:+ attribute).

(** The checks shared by the three variants: [name], [dataKey] and [label]
    are strings. *)
Definition base (t : FieldType) (config : props) (opts : list string)
  : thrown + FieldDefinition :=
  match as_string (get_prop config "name") with
  | None => malformed "?" "name"
  | Some n =>
      match as_string (get_prop config "dataKey") with
      | None => malformed n "dataKey"
      | Some k =>
          match as_string (get_prop config "label") with
          | None => malformed n "label"
          | Some l => inr (mkField n k t l opts (get_prop config "validation"))
          end
      end
  end.

Definition StringFieldDefinition (config : props) : thrown + FieldDefinition :=
  base String config [].

Definition selecting (t : FieldType) (config : props) : thrown + FieldDefinition :=
  let! fd := base t config [] in
  match as_options (get_prop config "values") with
  | None => malformed (name fd) "values"
  | Some opts => base t config opts
  end.

Definition EnumFieldDefinition (config : props) : thrown + FieldDefinition :=
  selecting Enum config.

Definition MultipleSelectFieldDefinition (config : props) : thrown + FieldDefinition :=
  selecting MultipleSelect config.

End Types.

Import Types (FieldDefinition, FieldType).

(** ** The parser [parseYamlConfig] *)

(** Strict equality of a value with a member of [FieldType], as the [switch]
    on [field.type] tests it. *)
Definition is_type (v : value) (t : FieldType) : bool :=
  match v with
  | JStr s => String.eqb s (Types.FieldType_value t)
  | _ => false
  end.

Definition missing_label (name lang : string) : string :=
  "Missing label for field '" +:+ name +:+ "' (lang=" +:+ lang +:+ ")".

Definition invalid_type (name shown : string) : string :=
  "Invalid field type for '" +:+ name +:+ "': " +:+ shown.

Definition duplicate_dataKey (key : string) : string :=
  "Duplicate dataKey '" +:+ key +:+ "'".

(** The [map] callback starts with the shallow copy [{ ...rawField }] and
    localises it in three steps.  First the label: a missing (falsy) label,
    or a mapping without a (truthy) entry for the language, is an error; a
    mapping is replaced by its entry. *)
Definition label_missing (lang : string) (label : value) : bool :=
  negb (ToBoolean label)
  || (typeof_object label && negb (ToBoolean (Get label lang))).

Definition localizeLabel (name lang : string) (field : props)
  : thrown + props :=
  let label := get_prop field "label" in
  if label_missing lang label
  then throw ConfigurationError (missing_label name lang)
  else if typeof_object label then inr (set_prop field "label" (Get label lang))
  else inr field.

(** Then the values, for [ENUM] and [MULTIPLE_SELECT]. *)
Definition localizeValues (lang : string) (field : props) : props :=
  let values := get_prop field "values" in
  if ToBoolean values && typeof_object values && negb (isArray values)
  then set_prop field "values" (Get values lang)
  else field.

(** Then the error message of the validation, in a new validation object. *)
Definition localizeValidation (lang : string) (field : props) : props :=
  let validation := get_prop field "validation" in
  let errorMessage := GetOpt validation "errorMessage" in
  if ToBoolean errorMessage && typeof_object errorMessage
  then set_prop field "validation"
         (JObj (set_prop (own_props validation) "errorMessage"
                  (Get errorMessage lang)))
  else field.

Definition localizeField (name : string) (rawField : value) (lang : string)
  : thrown + props :=
  let field := own_props rawField in
  let! field := localizeLabel name lang field in
  let field := localizeValues lang field in
  let field := localizeValidation lang field in
  inr field.

(** The [switch] on [field.type]: one constructor per variant, applied to
    [{ ...field, name }]. *)
Definition constructField (name : string) (field : props)
  : thrown + FieldDefinition :=
  let type := get_prop field "type" in
  let config := set_prop field "name" (JStr name) in
  if is_type type Types.String then Types.StringFieldDefinition config
  else if is_type type Types.Enum then Types.EnumFieldDefinition config
  else if is_type type Types.MultipleSelect
  then Types.MultipleSelectFieldDefinition config
  else
    let! shown := ToString type in
    throw ConfigurationError (invalid_type name shown).

(** The callback of [Object.entries(yamlJson).map]. *)
Definition fieldDefinitionOf (lang : string) (entry : string * value)
  : thrown + FieldDefinition :=
  let '(name, rawField) := entry in
  let! field := localizeField name rawField lang in
  constructField name field.

(** [map] with a throwing callback: entries are visited in order and the
    first exception ends the traversal. *)
Fixpoint mapEntries (lang : string) (entries : props)
  : thrown + list FieldDefinition :=
  match entries with
  | [] => inr []
  | entry :: entries =>
      let! fd := fieldDefinitionOf lang entry in
      let! fds := mapEntries lang entries in
      inr (fd :: fds)
  end.

(** The [forEach] over the constructed definitions with the [Map] of the
    data keys seen so far. *)
Fixpoint validateDataKeys (dataKeys : gmap string bool)
    (fieldDefinitions : list FieldDefinition) : thrown + unit :=
  match fieldDefinitions with
  | [] => inr ()
  | field :: rest =>
      match dataKeys !! Types.dataKey field with
      | Some _ =>
          throw ConfigurationError (duplicate_dataKey (Types.dataKey field))
      | None => validateDataKeys (<[Types.dataKey field := true]> dataKeys) rest
      end
  end.

(** The body of [parseYamlConfig] after [parse(yamlText)]. *)
Definition parseYamlJson (yamlJson : value) (lang : string)
  : thrown + list FieldDefinition :=
  let! entries := Object_entries yamlJson in
  let! fieldDefinitions := mapEntries lang entries in
  let! _ := validateDataKeys ∅ fieldDefinitions in
  inr fieldDefinitions.

Section Parser.

(** [parse] of the [yaml] package: the document as a value, or an
    exception. *)
Variable parse : string → thrown + value.

(** The enclosing [try]/[catch] re-throws what it catches. *)
Definition parseYamlConfig (yamlText : string) (lang : string)
  : thrown + list FieldDefinition :=
  let! yamlJson := parse yamlText in
  parseYamlJson yamlJson lang.

End Parser.

(** ** The hook [useFieldsConfig]

    The hook as a transition system.  A [World] holds the four state
    variables of the hook, the active language of [i18n], the calls of
    [fetchConfig] that are still awaiting their response, and the record of
    the calls made to [customFetch] and to [parseYamlConfig].  An event is
    handled to completion (state updates, re-render and the effects whose
    dependencies changed) before the next one. *)

Module Hook.

Record FetchedYaml : Type := mkFetched { yaml : string; lang : string }.

Record State : Type := mkState {
  fields : list FieldDefinition;
  loading : bool;
  error : option js_error;
  fetchedYaml : option FetchedYaml;
}.

Inductive call : Type :=
  | CustomFetch (configPath : string)
  | ParseYamlConfig (yamlText lang : string).

Record World : Type := mkWorld {
  state : State;
  language : option string;
  inFlight : list string;
  calls : list call;
}.

Inductive event : Type :=
  | LanguageChanged (language : option string)
  | FetchSettled (request : nat) (outcome : thrown + string).

Definition CONFIG_BASE_PATH : string := "/data/config".

Definition configPath (lang : string) : string :=
  CONFIG_BASE_PATH +:+ "/fields-" +:+ lang +:+ ".yaml".

(** [err instanceof Error ? err : new Error(message)] *)
Definition asError (err : thrown) (message : string) : js_error :=
  match err with
  | ThrowError e => e
  | ThrowValue _ => mkError GenericError message
  end.

Definition setFields (v : list FieldDefinition) (s : State) : State :=
  mkState v (loading s) (error s) (fetchedYaml s).
Definition setLoading (v : bool) (s : State) : State :=
  mkState (fields s) v (error s) (fetchedYaml s).
Definition setError (v : option js_error) (s : State) : State :=
  mkState (fields s) (loading s) v (fetchedYaml s).
Definition setFetchedYaml (v : option FetchedYaml) (s : State) : State :=
  mkState (fields s) (loading s) (error s) v.

Definition initial : State := mkState [] true None None.

Section Controller.

Variable parse : string → thrown + value.
Variable DEFAULT_LOCALE : string.

(** [i18n.language || DEFAULT_LOCALE] *)
Definition activeLanguage (language : option string) : string :=
  match language with
  | Some l => if String.eqb l "" then DEFAULT_LOCALE else l
  | None => DEFAULT_LOCALE
  end.

(** The first effect, up to the first [await] of [fetchConfig]. *)
Definition fetchEffect (w : World) : World :=
  let lang := activeLanguage (language w) in
  match fetchedYaml (state w) with
  | Some _ => w
  | None =>
      mkWorld (setLoading true (state w)) (language w)
        (inFlight w ++ [lang])
        (calls w ++ [CustomFetch (configPath lang)])
  end.

(** The second effect. *)
Definition parseEffect (w : World) : World :=
  match fetchedYaml (state w) with
  | None => w
  | Some fetched =>
      let currentLang := activeLanguage (language w) in
      let s :=
        match parseYamlConfig parse (yaml fetched) currentLang with
        | inr parsedDefinitions =>
            setError None (setFields parsedDefinitions (state w))
        | inl err =>
            setError (Some (asError err "Error parsing configuration")) (state w)
        end in
      mkWorld (setLoading false s) (language w) (inFlight w)
        (calls w ++ [ParseYamlConfig (yaml fetched) currentLang])
  end.

(** The rest of [fetchConfig], once the response or the exception is
    there.  A new [fetchedYaml] object changes the dependencies of the second
    effect only. *)
Definition settle (lang : string) (outcome : thrown + string) (w : World)
  : World :=
  match outcome with
  | inr yamlText =>
      parseEffect
        (mkWorld
           (setError None (setFetchedYaml (Some (mkFetched yamlText lang)) (state w)))
           (language w) (inFlight w) (calls w))
  | inl err =>
      mkWorld
        (setLoading false
           (setError (Some (asError err "Unknown error loading configuration"))
              (state w)))
        (language w) (inFlight w) (calls w)
  end.

(** The first render: both effects run. *)
Definition mount (language : option string) : World :=
  parseEffect (fetchEffect (mkWorld initial language [] [])).

Definition step (w : World) (e : event) : World :=
  match e with
  | LanguageChanged language' =>
      if decide (language' = language w) then w
      else
        parseEffect
          (fetchEffect (mkWorld (state w) language' (inFlight w) (calls w)))
  | FetchSettled request outcome =>
      match inFlight w !! request with
      | None => w
      | Some lang =>
          settle lang outcome
            (mkWorld (state w) (language w) (delete request (inFlight w))
               (calls w))
      end
  end.

Definition run (w : World) (events : list event) : World :=
  foldl step w events.

End Controller.

(** The calls to [customFetch] among the recorded calls. *)
Definition fetches (cs : list call) : list string :=
  omap (λ c, match c with CustomFetch p => Some p | _ => None end) cs.

(** What holds of every world the hook reaches: no fields without a cached
    document, a request in flight while loading, and a recorded fetch behind
    every request in flight and behind the cached document. *)
Definition consistent (w : World) : Prop :=
  (fetchedYaml (state w) = None → fields (state w) = [])
  ∧ (loading (state w) = true → inFlight w ≠ [])
  ∧ (∀ lang, lang ∈ inFlight w → configPath lang ∈ fetches (calls w))
  ∧ (∀ fetched, fetchedYaml (state w) = Some fetched →
       configPath (lang fetched) ∈ fetches (calls w)).

End Hook.

(** ** The localisation step over a store

    Objects and arrays are mutable and shared in JavaScript: [{ ...rawField }]
    copies one level, so the copy and the raw record point to the same
    [label], [values] and [validation] objects.  This rendering keeps a store
    of objects addressed by location and performs the assignments of the
    callback on it. *)

Module Store.

Inductive ref_value : Type :=
  | VUndefined
  | VNull
  | VBool (b : bool)
  | VNum (n : Z)
  | VStr (s : string)
  | VRef (l : nat).

Abbreviation ref_props := (list (string * ref_value)).

Inductive object : Type :=
  | OObj (ps : ref_props)
  | OArr (xs : list ref_value).

Abbreviation store := (list object).

Definition ToBoolean (v : ref_value) : bool :=
  match v with
  | VUndefined | VNull => false
  | VBool b => b
  | VNum n => negb (n =? 0)%Z
  | VStr s => negb (String.eqb s "")
  | VRef _ => true
  end.

Definition typeof_object (v : ref_value) : bool :=
  match v with
  | VNull | VRef _ => true
  | _ => false
  end.

Definition isArray (σ : store) (v : ref_value) : bool :=
  match v with
  | VRef l => match σ !! l with Some (OArr _) => true | _ => false end
  | _ => false
  end.

Fixpoint lookup_prop (k : string) (ps : ref_props) : option ref_value :=
  match ps with
  | [] => None
  | (k', v) :: ps => if String.eqb k' k then Some v else lookup_prop k ps
  end.

Definition get_prop (ps : ref_props) (k : string) : ref_value :=
  default VUndefined (lookup_prop k ps).

Fixpoint set_prop (ps : ref_props) (k : string) (v : ref_value) : ref_props :=
  match ps with
  | [] => [(k, v)]
  | (k', v') :: ps =>
      if String.eqb k' k then (k', v) :: ps else (k', v') :: set_prop ps k v
  end.

Definition indexed (xs : list ref_value) : ref_props :=
  imap (λ i x, (pretty i, x)) xs.

Definition chars (s : string) : list ref_value :=
  (λ c, VStr (String c "")) <$> String.list_ascii_of_string s.

Definition own_props (σ : store) (v : ref_value) : ref_props :=
  match v with
  | VRef l =>
      match σ !! l with
      | Some (OObj ps) => ps
      | Some (OArr xs) => indexed xs
      | None => []
      end
  | VStr s => indexed (chars s)
  | _ => []
  end.

Definition Get (σ : store) (v : ref_value) (k : string) : ref_value :=
  match v with
  | VRef l =>
      match σ !! l with
      | Some (OObj ps) => get_prop ps k
      | Some (OArr xs) =>
          if String.eqb k "length" then VNum (Z.of_nat (length xs))
          else get_prop (indexed xs) k
      | None => VUndefined
      end
  | VStr s =>
      if String.eqb k "length" then VNum (Z.of_nat (String.length s))
      else get_prop (indexed (chars s)) k
  | _ => VUndefined
  end.

Definition GetOpt (σ : store) (v : ref_value) (k : string) : ref_value :=
  match v with
  | VUndefined | VNull => VUndefined
  | _ => Get σ v k
  end.

(** An object literal: a new object at the next free location. *)
Definition alloc (σ : store) (o : object) : store * nat :=
  ((σ ++ [o])%list, length σ).

(** The assignment [l.k = v] on a plain object. *)
Definition assign (σ : store) (l : nat) (k : string) (v : ref_value) : store :=
  match σ !! l with
  | Some (OObj ps) => <[l := OObj (set_prop ps k v)]> σ
  | _ => σ
  end.

(** The localisation steps of the callback, statement by statement, on the
    copy at location [field]. *)
Definition label_missing (σ : store) (lang : string) (label : ref_value)
  : bool :=
  negb (ToBoolean label)
  || (typeof_object label && negb (ToBoolean (Get σ label lang))).

Definition localizeLabel (σ : store) (name lang : string) (field : nat)
  : store * (thrown + nat) :=
  let label := Get σ (VRef field) "label" in
  if label_missing σ lang label
  then (σ, throw ConfigurationError (missing_label name lang))
  else if typeof_object label
  then (assign σ field "label" (Get σ label lang), inr field)
  else (σ, inr field).

Definition localizeValues (σ : store) (lang : string) (field : nat) : store :=
  let values := Get σ (VRef field) "values" in
  if ToBoolean values && typeof_object values && negb (isArray σ values)
  then assign σ field "values" (Get σ values lang)
  else σ.

Definition localizeValidation (σ : store) (lang : string) (field : nat)
  : store :=
  let validation := Get σ (VRef field) "validation" in
  let errorMessage := GetOpt σ validation "errorMessage" in
  if ToBoolean errorMessage && typeof_object errorMessage
  then
    let '(σ, fresh) :=
      alloc σ
        (OObj (set_prop (own_props σ validation) "errorMessage"
                 (Get σ errorMessage lang))) in
    assign σ field "validation" (VRef fresh)
  else σ.

Definition localizeField (σ : store) (name : string) (rawField : ref_value)
    (lang : string) : store * (thrown + nat) :=
  let '(σ, field) := alloc σ (OObj (own_props σ rawField)) in
  match localizeLabel σ name lang field with
  | (σ, inl t) => (σ, inl t)
  | (σ, inr field) =>
      let σ := localizeValues σ lang field in
      let σ := localizeValidation σ lang field in
      (σ, inr field)
  end.

(** The traversal of the entries, as far as localisation goes: the store is
    threaded through the calls and the first exception ends it. *)
Fixpoint localizeEntries (σ : store) (entries : ref_props) (lang : string)
  : store * (thrown + list nat) :=
  match entries with
  | [] => (σ, inr [])
  | (name, rawField) :: entries =>
      match localizeField σ name rawField lang with
      | (σ, inl t) => (σ, inl t)
      | (σ, inr field) =>
          match localizeEntries σ entries lang with
          | (σ, inl t) => (σ, inl t)
          | (σ, inr fields) => (σ, inr (field :: fields))
          end
      end
  end.

(** The tree a value of the store stands for, reading at most [depth]
    references deep. *)
Definition reify_props (reify : ref_value → option value) (ps : ref_props)
  : option props :=
  mapM (λ kv, pair kv.1 <$> reify kv.2) ps.

Fixpoint reify (depth : nat) (σ : store) (v : ref_value) : option value :=
  match v with
  | VUndefined => Some JUndefined
  | VNull => Some JNull
  | VBool b => Some (JBool b)
  | VNum n => Some (JNum n)
  | VStr s => Some (JStr s)
  | VRef l =>
      match depth with
      | O => None
      | S depth =>
          match σ !! l with
          | Some (OObj ps) =>
              JObj <$> reify_props (reify depth σ) ps
          | Some (OArr xs) => JArr <$> mapM (reify depth σ) xs
          | None => None
          end
      end
  end.

(** Properties of the store that stand for properties of a tree, each
    value read by [reify]. *)
Definition props_related (reify : ref_value → option value)
    (ps : ref_props) (ps' : props) : Prop :=
  Forall2 (λ kv kx, kv.1 = kx.1 ∧ reify kv.2 = Some kx.2) ps ps'.

(** The state between two steps of the localisation of a field: the store
    extends the initial store [σ0], and the copy at [field], a location that
    [σ0] does not have, holds properties that stand for [p]. *)
Definition copy_at (σ0 : store) (depth : nat) (σ : store) (field : nat)
    (p : props) : Prop :=
  σ0 `prefix_of` σ ∧ length σ0 ≤ field
  ∧ ∃ ps, σ !! field = Some (OObj ps)
          ∧ props_related (reify depth σ0) ps p.

(** The copy at [field] agrees with [ps] on the attributes that
    localisation does not touch. *)
Definition untouched (σ : store) (field : nat) (ps : ref_props) : Prop :=
  ∃ ps', σ !! field = Some (OObj ps')
    ∧ ∀ k, k ∉ ["label"; "values"; "validation"] →
        get_prop ps' k = get_prop ps k.

End Store.

(** ** Schema documents

    The schema document format of the specification, as a decidable
    predicate on the parsed document: a top-level mapping whose entries are
    mappings with a [type] among the three variants, a [label] that is a
    non-empty string or a language-keyed mapping with one for the language,
    [values] (for the selecting variants) that are a non-empty sequence of
    strings or a language-keyed mapping with one for the language, and a
    string [dataKey]; data keys are pairwise distinct. *)

Definition field_type (v : value) : option FieldType :=
  if is_type v Types.String then Some Types.String
  else if is_type v Types.Enum then Some Types.Enum
  else if is_type v Types.MultipleSelect then Some Types.MultipleSelect
  else None.

Definition nonempty_string (v : value) : bool :=
  match v with JStr s => negb (String.eqb s "") | _ => false end.

Definition resolves_label (lang : string) (label : value) : bool :=
  match label with
  | JStr _ => nonempty_string label
  | JObj m => nonempty_string (get_prop m lang)
  | _ => false
  end.

Definition resolves_values (lang : string) (values : value) : bool :=
  match values with
  | JArr _ => bool_decide (is_Some (Types.as_options values))
  | JObj m => bool_decide (is_Some (Types.as_options (get_prop m lang)))
  | _ => false
  end.

Definition raw_dataKey (rawField : value) : option string :=
  Types.as_string (get_prop (own_props rawField) "dataKey").

Definition valid_field (lang : string) (rawField : value) : bool :=
  match rawField with
  | JObj ps =>
      match field_type (get_prop ps "type") with
      | None => false
      | Some t =>
          resolves_label lang (get_prop ps "label")
          && match t with
             | Types.String => true
             | _ => resolves_values lang (get_prop ps "values")
             end
          && bool_decide (is_Some (raw_dataKey rawField))
      end
  | _ => false
  end.

Definition valid_document (lang : string) (yamlJson : value) : bool :=
  match yamlJson with
  | JObj entries =>
      forallb (λ entry, valid_field lang entry.2) entries
      && bool_decide (NoDup ((λ entry, raw_dataKey entry.2) <$> entries))
  | _ => false
  end.

(** A raw field without language mappings: neither its label nor the
    error message of its validation is an object or an array, and its values
    are not a plain object. *)
Definition is_object (v : value) : bool :=
  match v with JArr _ | JObj _ => true | _ => false end.

Definition untranslated (rawField : value) : bool :=
  let field := own_props rawField in
  negb (is_object (get_prop field "label"))
  && negb (match get_prop field "values" with JObj _ => true | _ => false end)
  && negb (is_object (GetOpt (get_prop field "validation") "errorMessage")).

(** The first key, in order, that was seen before it. *)
Fixpoint first_duplicate (seen keys : list string) : option string :=
  match keys with
  | [] => None
  | k :: keys =>
      if bool_decide (k ∈ seen) then Some k
      else first_duplicate (k :: seen) keys
  end.

(** The document of the end-to-end example. *)
Definition sample_document : value :=
  JObj
    [ ("firstName",
       JObj [ ("type", JStr "STRING");
              ("label", JObj [("en", JStr "First name"); ("es", JStr "Nombre")]);
              ("dataKey", JStr "firstName") ]);
      ("country",
       JObj [ ("type", JStr "ENUM");
              ("label", JObj [("en", JStr "Country"); ("es", JStr "País")]);
              ("values", JObj [ ("en", JArr [JStr "US"; JStr "CA"]);
                                ("es", JArr [JStr "US"; JStr "CA"]) ]);
              ("dataKey", JStr "country") ]) ].


(** Two entries declaring the same data key. *)
Definition duplicate_document : value :=
  JObj
    [ ("first",
       JObj [("type", JStr "STRING"); ("label", JStr "First"); ("dataKey", JStr "x")]);
      ("second",
       JObj [("type", JStr "STRING"); ("label", JStr "Second"); ("dataKey", JStr "x")]) ].



(** An entry whose label is the empty string. *)
Definition empty_label_field : value :=
  JObj [("type", JStr "STRING"); ("label", JStr ""); ("dataKey", JStr "a")].

(** A document without language mappings. *)
Definition untranslated_document : value :=
  JObj
    [ ("firstName",
       JObj [("type", JStr "STRING"); ("label", JStr "First name");
             ("dataKey", JStr "firstName")]);
      ("country",
       JObj [("type", JStr "ENUM"); ("label", JStr "Country");
             ("values", JArr [JStr "US"; JStr "CA"]);
             ("dataKey", JStr "country")]) ].

(** A stand-in for [parse] in the examples: every text reads as the given
    document. *)
Definition parse_as (document : value) : string → thrown + value :=
  λ _, inr document.

(** The hook mounted with English active, and the same once the response
    with the example document has arrived. *)
Definition mounted_world : Hook.World :=
  Hook.mount (parse_as sample_document) "en" (Some "en").

Definition cached_world : Hook.World :=
  Hook.run (parse_as sample_document) "en" mounted_world
    [Hook.FetchSettled 0 (inr "fields")].

(** A store holding a document with one field, whose label and validation
    message are language mappings. *)
Definition sample_store : Store.store :=
  [ Store.OObj [("en", Store.VStr "First name"); ("es", Store.VStr "Nombre")];
    Store.OObj [("en", Store.VStr "Required"); ("es", Store.VStr "Obligatorio")];
    Store.OObj [("errorMessage", Store.VRef 1); ("pattern", Store.VStr ".+")];
    Store.OObj [ ("type", Store.VStr "STRING"); ("label", Store.VRef 0);
                 ("validation", Store.VRef 2); ("dataKey", Store.VStr "firstName") ];
    Store.OObj [("firstName", Store.VRef 3)] ].

(** A store in which a field carries an object of its own besides its
    label. *)
Definition shared_store : Store.store :=
  [ Store.OObj [("group", Store.VStr "address")];
    Store.OObj [ ("type", Store.VStr "STRING"); ("label", Store.VStr "Address");
                 ("metadata", Store.VRef 0); ("dataKey", Store.VStr "address") ] ].

(** ** The language menu [LanguageContextMenu]

    The items the component hands to [ContextMenu].  The members of [Locale]
    ([src/i18n/constants]) and the result of [parseEnvSupportedLocales] are
    not among the sources and are taken as they come; the action of an item
    is kept as the language it calls [i18n.changeLanguage] with. *)

Module LanguageContextMenu.

Definition uniqueId : string := "f4d06e4b-0e0c-49c7-ad93-924c5ac89070".

Definition ENGLISH_UK : string := "English (UK)".
Definition ENGLISH_US : string := "English (US)".
Definition SPANISH_ES : string := "Español (España)".
Definition SPANISH_AR : string := "Español (Argentina)".

Record MenuItemConfig : Type := mkItem {
  id : string;
  text : string;
  disabled : bool;
  action : string;
}.

Section Menu.

Variables EN_GB EN_US ES_ES ES_AR : string.
Variable supportedLanguages : list string.

(** [supportedLanguages.includes(locale)] *)
Definition includes (locale : string) : bool :=
  bool_decide (locale ∈ supportedLanguages).

Definition menuItem (locale text : string) : MenuItemConfig :=
  mkItem ("language-context-menu-" +:+ uniqueId +:+ "-" +:+ locale) text
    (negb (includes locale)) locale.

Definition allMenuItems : list MenuItemConfig :=
  [ menuItem EN_GB ENGLISH_UK;
    menuItem EN_US ENGLISH_US;
    menuItem ES_ES SPANISH_ES;
    menuItem ES_AR SPANISH_AR ].

(** The filter on [disabled], then the fall-back to the English item when
    nothing is left. *)
Definition visibleMenuItems : list MenuItemConfig :=
  let visible := List.filter (λ item, negb (disabled item)) allMenuItems in
  if length visible =? 0 then
    match List.find (λ item, String.eqb (text item) ENGLISH_UK) allMenuItems with
    | Some englishItem => [englishItem]
    | None => visible
    end
  else visible.

End Menu.

End LanguageContextMenu.

(** * Properties *)

(** ** Property lists *)

Lemma lookup_set_prop ps k v k' :
  lookup_prop k' (set_prop ps k v) =
  if String.eqb k k' then Some v else lookup_prop k' ps.
Proof.
  induction ps as [|[k0 v0] ps IH]; simpl.
  - by destruct (String.eqb_spec k k').
  - destruct (String.eqb_spec k0 k) as [->|Hne]; simpl.
    + by destruct (String.eqb_spec k k').
    + rewrite IH. destruct (String.eqb_spec k0 k') as [->|]; [|done].
      by destruct (String.eqb_spec k k').
Qed.

Lemma get_set_prop ps k v k' :
  get_prop (set_prop ps k v) k' =
  if String.eqb k k' then v else get_prop ps k'.
Proof.
  unfold get_prop. rewrite lookup_set_prop. by destruct (String.eqb k k').
Qed.

(** ** Parsing valid documents *)

Lemma field_type_Some v t :
  field_type v = Some t → v = JStr (Types.FieldType_value t).
Proof.
  unfold field_type, is_type. destruct v as [| | | |s| |]; try done.
  repeat case_match; intros [= <-]; f_equal; by apply String.eqb_eq.
Qed.

Lemma nonempty_string_inv v :
  nonempty_string v = true → ∃ s, v = JStr s ∧ ToBoolean v = true.
Proof. destruct v; try done. simpl. eauto. Qed.

Lemma localizeValues_get lang field k :
  k ≠ "values" → get_prop (localizeValues lang field) k = get_prop field k.
Proof.
  intros Hk. unfold localizeValues. case_match; [|done].
  rewrite get_set_prop. destruct (String.eqb_spec "values" k); congruence.
Qed.

Lemma localizeValidation_get lang field k :
  k ≠ "validation" →
  get_prop (localizeValidation lang field) k = get_prop field k.
Proof.
  intros Hk. unfold localizeValidation. case_match; [|done].
  rewrite get_set_prop. destruct (String.eqb_spec "validation" k); congruence.
Qed.

Lemma localizeLabel_get name lang field field' k :
  localizeLabel name lang field = inr field' →
  k ≠ "label" → get_prop field' k = get_prop field k.
Proof.
  unfold localizeLabel, label_missing. intros H Hk. repeat case_match; simplify_eq; [|done].
  rewrite get_set_prop. destruct (String.eqb_spec "label" k); congruence.
Qed.

Lemma localizeLabel_resolves name lang field :
  resolves_label lang (get_prop field "label") = true →
  ∃ field' l, localizeLabel name lang field = inr field'
    ∧ get_prop field' "label" = JStr l.
Proof.
  unfold localizeLabel, label_missing, resolves_label.
  destruct (get_prop field "label") as [| | | |s| |m] eqn:Hl; try done.
  - intros Hs. simpl in *. rewrite Hs. simpl. eauto.
  - intros (s & Hs & Hb)%nonempty_string_inv. simpl. rewrite Hs in *.
    rewrite Hb. simpl. eexists _, s. split; [done|].
    by rewrite get_set_prop.
Qed.
Lemma localizeValues_resolves lang field :
  resolves_values lang (get_prop field "values") = true →
  is_Some (Types.as_options (get_prop (localizeValues lang field) "values")).
Proof.
  unfold localizeValues, resolves_values.
  destruct (get_prop field "values") as [| | | | |xs|m] eqn:Hv; try done;
    rewrite bool_decide_eq_true; simpl.
  - by rewrite Hv.
  - by rewrite get_set_prop.
Qed.

Lemma base_constructs t config opts n k l :
  get_prop config "name" = JStr n →
  get_prop config "dataKey" = JStr k →
  get_prop config "label" = JStr l →
  Types.base t config opts =
  inr (Types.mkField n k t l opts (get_prop config "validation")).
Proof. unfold Types.base. by intros -> -> ->. Qed.

Lemma constructField_valid name field t k l :
  get_prop field "type" = JStr (Types.FieldType_value t) →
  get_prop field "dataKey" = JStr k →
  get_prop field "label" = JStr l →
  match t with
  | Types.String => True
  | _ => is_Some (Types.as_options (get_prop field "values"))
  end →
  ∃ opts, constructField name field =
          inr (Types.mkField name k t l opts (get_prop field "validation")).
Proof.
  intros Ht Hk Hl Hv. unfold constructField. rewrite Ht.
  assert (Hbase : ∀ opts,
    Types.base t (set_prop field "name" (JStr name)) opts =
    inr (Types.mkField name k t l opts (get_prop field "validation"))).
  { intros opts. erewrite base_constructs; rewrite ?get_set_prop; simpl; eauto. }
  destruct t; simpl.
  - eexists. apply Hbase.
  - destruct Hv as [opts Hopts]. exists opts.
    unfold Types.EnumFieldDefinition, Types.selecting.
    rewrite Hbase, get_set_prop. simpl. rewrite Hopts. apply Hbase.
  - destruct Hv as [opts Hopts]. exists opts.
    unfold Types.MultipleSelectFieldDefinition, Types.selecting.
    rewrite Hbase, get_set_prop. simpl. rewrite Hopts. apply Hbase.
Qed.

Lemma valid_field_constructs lang name rawField :
  valid_field lang rawField = true →
  ∃ fd, fieldDefinitionOf lang (name, rawField) = inr fd
        ∧ Types.name fd = name
        ∧ raw_dataKey rawField = Some (Types.dataKey fd).
Proof.
  unfold valid_field. destruct rawField as [| | | | | |ps]; try done.
  destruct (field_type (get_prop ps "type")) as [t|] eqn:Ht; [|done].
  apply field_type_Some in Ht.
  rewrite !andb_true_iff, bool_decide_eq_true. intros [[Hl Hv] [k Hk]].
  unfold raw_dataKey in *. simpl in Hk.
  destruct (get_prop ps "dataKey") as [| | | |k'| |] eqn:Hk'; simplify_eq/=.
  destruct (localizeLabel_resolves name lang ps Hl) as (field & l & Hloc & Hlabel).
  unfold fieldDefinitionOf, localizeField. simpl own_props. rewrite Hloc.
  edestruct (constructField_valid name
     (localizeValidation lang (localizeValues lang field)) t k l) as [opts ->].
  - rewrite localizeValidation_get, localizeValues_get by done.
    by erewrite localizeLabel_get.
  - rewrite localizeValidation_get, localizeValues_get by done.
    erewrite localizeLabel_get; eauto.
  - by rewrite localizeValidation_get, localizeValues_get.
  - destruct t; [done| |]; rewrite localizeValidation_get by done;
      apply localizeValues_resolves; by erewrite localizeLabel_get.
  - eexists. split; [done|]. simpl. by rewrite Hk'.
Qed.
#[local] Arguments fieldDefinitionOf : simpl never.

Lemma mapEntries_valid lang entries :
  forallb (λ entry, valid_field lang entry.2) entries = true →
  ∃ fds, mapEntries lang entries = inr fds
         ∧ Types.name <$> fds = entries.*1
         ∧ Some ∘ Types.dataKey <$> fds = (λ entry, raw_dataKey entry.2) <$> entries.
Proof.
  induction entries as [|[name rawField] entries IH]; simpl.
  - by exists [].
  - rewrite andb_true_iff. intros [Hv Hvs].
    destruct (valid_field_constructs lang name rawField Hv) as (fd & -> & Hn & Hk).
    destruct (IH Hvs) as (fds & -> & Hns & Hks).
    exists (fd :: fds). rewrite !fmap_cons, Hns, Hks, Hk. simpl. by rewrite Hn.
Qed.

Lemma mapEntries_length lang entries fds :
  mapEntries lang entries = inr fds → length fds = length entries.
Proof.
  revert fds. induction entries as [|entry entries IH]; simpl; intros fds.
  - by intros [= <-].
  - destruct (fieldDefinitionOf lang entry); [done|].
    destruct (mapEntries lang entries); [done|].
    intros [= <-]. simpl. by rewrite IH.
Qed.

(** ** The duplicate check *)

Lemma first_duplicate_None seen keys :
  first_duplicate seen keys = None ↔
  NoDup keys ∧ ∀ k, k ∈ keys → k ∉ seen.
Proof.
  revert seen. induction keys as [|k keys IH]; intros seen; simpl.
  - split; [intros _; split; [constructor|set_solver]|done].
  - case_bool_decide as Hk.
    + split; [done|]. intros [_ H]. exfalso. apply (H k); [set_solver|done].
    + rewrite IH, NoDup_cons. set_solver.
Qed.

Lemma first_duplicate_Some seen keys k :
  first_duplicate seen keys = Some k ↔
  ∃ pre post, keys = (pre ++ k :: post)%list
    ∧ NoDup pre ∧ (∀ x, x ∈ pre → x ∉ seen) ∧ (k ∈ seen ∨ k ∈ pre).
Proof.
  revert seen. induction keys as [|k0 keys IH]; intros seen; simpl.
  - split; [done|]. intros (pre & post & H & _). by destruct pre.
  - case_bool_decide as Hk.
    + split.
      * intros [= <-]. exists [], keys. repeat split; [constructor|set_solver|auto].
      * intros (pre & post & Heq & Hnd & Hfresh & Hin).
        destruct pre as [|x pre]; simplify_eq/=; [done|].
        exfalso. apply (Hfresh x); [set_solver|done].
    + rewrite IH. split.
      * intros (pre & post & -> & Hnd & Hfresh & Hin).
        exists (k0 :: pre), post. repeat split.
        -- apply NoDup_cons. split; [|done]. intros Hx. apply Hfresh in Hx. set_solver.
        -- intros x [->|Hx]%elem_of_cons; [done|]. apply Hfresh in Hx. set_solver.
        -- set_solver.
      * intros (pre & post & Heq & Hnd & Hfresh & Hin).
        destruct pre as [|x pre]; simplify_eq/=.
        { destruct Hin as [Hin|Hin]; [done|]. by apply elem_of_nil in Hin. }
        apply NoDup_cons in Hnd as [Hx Hnd].
        exists pre, post. repeat split; [done| |].
        -- intros y Hy [->|Hy']%elem_of_cons; [done|].
           apply (Hfresh y); [set_solver|done].
        -- set_solver.
Qed.

Lemma validateDataKeys_first_duplicate (dataKeys : gmap string bool) seen fds :
  (∀ k, is_Some (dataKeys !! k) ↔ k ∈ seen) →
  validateDataKeys dataKeys fds =
  match first_duplicate seen (Types.dataKey <$> fds) with
  | Some k => throw ConfigurationError (duplicate_dataKey k)
  | None => inr ()
  end.
Proof.
  revert dataKeys seen. induction fds as [|fd fds IH]; intros m seen Hm; simpl; [done|].
  case_bool_decide as Hk.
  - apply Hm in Hk as [b ->]. done.
  - destruct (m !! Types.dataKey fd) eqn:Hlook.
    { exfalso. apply Hk, Hm. eauto. }
    apply IH. intros k. rewrite lookup_insert_is_Some', elem_of_cons, Hm.
    naive_solver.
Qed.

Lemma parseYamlJson_entries yamlJson lang entries fds :
  Object_entries yamlJson = inr entries →
  mapEntries lang entries = inr fds →
  parseYamlJson yamlJson lang =
  match first_duplicate [] (Types.dataKey <$> fds) with
  | Some k => throw ConfigurationError (duplicate_dataKey k)
  | None => inr fds
  end.
Proof.
  intros He Hm. unfold parseYamlJson. rewrite He, Hm.
  rewrite (validateDataKeys_first_duplicate _ []).
  - by destruct (first_duplicate _ _).
  - intros k. rewrite lookup_empty. split; [by intros [??]|by intros ?%elem_of_nil].
Qed.
(** C3: for a valid schema document and a language present in its label and
    values mappings, parsing succeeds with one field definition per entry, in
    the order of the document's keys, with pairwise distinct data keys. *)
Theorem parse_valid_document lang entries :
  valid_document lang (JObj entries) = true →
  ∃ fds, parseYamlJson (JObj entries) lang = inr fds
    ∧ length fds = length entries
    ∧ Types.name <$> fds = entries.*1
    ∧ NoDup (Types.dataKey <$> fds).
Proof.
  unfold valid_document. rewrite andb_true_iff, bool_decide_eq_true.
  intros [Hvalid Hnodup].
  destruct (mapEntries_valid lang entries Hvalid) as (fds & Hmap & Hnames & Hkeys).
  assert (NoDup (Types.dataKey <$> fds)) as Hnd.
  { rewrite <- Hkeys, list_fmap_compose in Hnodup. by apply NoDup_fmap_1 in Hnodup. }
  exists fds. split_and!; [|by eapply mapEntries_length|done|done].
  erewrite parseYamlJson_entries; [|done|done].
  assert (first_duplicate [] (Types.dataKey <$> fds) = None) as ->; [|done].
  apply first_duplicate_None. split; [done|]. intros k _ ?%elem_of_nil. done.
Qed.

Lemma parse_valid_document_witness :
  valid_document "en" sample_document = true ∧
  ∃ fds, parseYamlJson sample_document "en" = inr fds
    ∧ length fds = 2
    ∧ Types.name <$> fds = ["firstName"; "country"]
    ∧ NoDup (Types.dataKey <$> fds).
Proof.
  split; [vm_compute; reflexivity|].
  apply (parse_valid_document "en"). vm_compute. reflexivity.
Defined.

(** ** What a constructed field was built from *)

Lemma base_inv t config opts fd :
  Types.base t config opts = inr fd →
  get_prop config "name" = JStr (Types.name fd)
  ∧ get_prop config "dataKey" = JStr (Types.dataKey fd)
  ∧ get_prop config "label" = JStr (Types.label fd)
  ∧ Types.type fd = t.
Proof.
  unfold Types.base, Types.malformed, throw.
  destruct (get_prop config "name"); try done.
  destruct (get_prop config "dataKey"); try done.
  destruct (get_prop config "label"); try done.
  by intros [= <-].
Qed.

Lemma selecting_inv t config fd :
  Types.selecting t config = inr fd →
  ∃ opts, Types.base t config opts = inr fd
    ∧ Types.as_options (get_prop config "values") = Some opts.
Proof.
  unfold Types.selecting. destruct (Types.base t config []); [done|].
  destruct (Types.as_options _) as [opts|]; [|done]. eauto.
Qed.

Lemma constructField_inv name field fd :
  constructField name field = inr fd →
  Types.name fd = name
  ∧ get_prop field "dataKey" = JStr (Types.dataKey fd)
  ∧ get_prop field "label" = JStr (Types.label fd)
  ∧ get_prop field "type" = JStr (Types.FieldType_value (Types.type fd)).
Proof.
  unfold constructField. intros H.
  assert (∀ t opts, is_type (get_prop field "type") t = true →
    Types.base t (set_prop field "name" (JStr name)) opts = inr fd →
    Types.name fd = name
    ∧ get_prop field "dataKey" = JStr (Types.dataKey fd)
    ∧ get_prop field "label" = JStr (Types.label fd)
    ∧ get_prop field "type" = JStr (Types.FieldType_value (Types.type fd))) as Hbase.
  { intros t opts Ht (Hn & Hk & Hl & <-)%base_inv.
    rewrite get_set_prop in Hn, Hk, Hl. simpl in *. simplify_eq.
    split_and!; try done.
    unfold is_type in Ht. destruct (get_prop field "type"); try done.
    by apply String.eqb_eq in Ht as ->. }
  destruct (is_type _ Types.String) eqn:H1; [by eapply Hbase|].
  destruct (is_type _ Types.Enum) eqn:H2.
  { apply selecting_inv in H as (opts & H & _). by eapply Hbase. }
  destruct (is_type _ Types.MultipleSelect) eqn:H3.
  { apply selecting_inv in H as (opts & H & _). by eapply Hbase. }
  by destruct (ToString _).
Qed.

Lemma fieldDefinitionOf_inv lang name rawField fd :
  fieldDefinitionOf lang (name, rawField) = inr fd →
  Types.name fd = name
  ∧ get_prop (own_props rawField) "dataKey" = JStr (Types.dataKey fd).
Proof.
  unfold fieldDefinitionOf, localizeField.
  destruct (localizeLabel _ _ _) as [|field] eqn:Hl; [done|].
  intros (Hn & Hk & _)%constructField_inv. split; [done|].
  rewrite localizeValidation_get, localizeValues_get in Hk by done.
  by erewrite localizeLabel_get in Hk.
Qed.

Lemma mapEntries_lookup lang entries fds i name rawField :
  mapEntries lang entries = inr fds →
  entries !! i = Some (name, rawField) →
  ∃ fd, fds !! i = Some fd
    ∧ fieldDefinitionOf lang (name, rawField) = inr fd.
Proof.
  revert fds i. induction entries as [|entry entries IH]; intros fds i; [done|].
  simpl. destruct (fieldDefinitionOf lang entry) as [|fd] eqn:Hfd; [done|].
  destruct (mapEntries lang entries) as [|fds'] eqn:Hm; [done|].
  intros [= <-]. destruct i as [|i]; simpl.
  - intros [= ->]. eauto.
  - by apply IH.
Qed.

Lemma mapEntries_names lang entries fds :
  mapEntries lang entries = inr fds → Types.name <$> fds = entries.*1.
Proof.
  revert fds. induction entries as [|[name rawField] entries IH]; intros fds; simpl.
  - by intros [= <-].
  - destruct (fieldDefinitionOf _ _) as [|fd] eqn:Hfd; [done|].
    destruct (mapEntries lang entries) as [|fds'] eqn:Hm; [done|].
    intros [= <-]. apply fieldDefinitionOf_inv in Hfd as [Hn _].
    rewrite fmap_cons, Hn. by rewrite IH.
Qed.

Lemma parseYamlJson_inr yamlJson lang entries fds :
  Object_entries yamlJson = inr entries →
  parseYamlJson yamlJson lang = inr fds →
  mapEntries lang entries = inr fds ∧ NoDup (Types.dataKey <$> fds).
Proof.
  intros He. destruct (mapEntries lang entries) as [t|fds'] eqn:Hm.
  { unfold parseYamlJson. by rewrite He, Hm. }
  erewrite parseYamlJson_entries by done.
  destruct (first_duplicate _ _) eqn:Hd; [done|]. intros [= <-].
  split; [done|]. by apply first_duplicate_None in Hd as [? _].
Qed.

(** C4: a document in which two entries share a data key does not parse.
    The duplicate check is a second pass over the constructed definitions: it
    fails at the first data key that already occurred, with a configuration
    error naming that key.  The parse yields either the complete validated
    sequence or an error, never a part of the sequence. *)
Theorem duplicate_dataKey_rejected lang yamlJson entries :
  Object_entries yamlJson = inr entries →
  (∀ i j ni rawi nj rawj,
      i ≠ j →
      entries !! i = Some (ni, rawi) → entries !! j = Some (nj, rawj) →
      get_prop (own_props rawi) "dataKey" = get_prop (own_props rawj) "dataKey" →
      ∃ t, parseYamlJson yamlJson lang = inl t)
  ∧ (∀ fds, mapEntries lang entries = inr fds →
       (NoDup (Types.dataKey <$> fds) ∧ parseYamlJson yamlJson lang = inr fds)
       ∨ (∃ pre k post,
            Types.dataKey <$> fds = (pre ++ k :: post)%list
            ∧ NoDup pre ∧ k ∈ pre
            ∧ parseYamlJson yamlJson lang =
              throw ConfigurationError (duplicate_dataKey k)))
  ∧ (∀ fds, parseYamlJson yamlJson lang = inr fds →
       mapEntries lang entries = inr fds
       ∧ length fds = length entries
       ∧ NoDup (Types.dataKey <$> fds)).
Proof.
  intros He. split_and!.
  - intros i j ni rawi nj rawj Hij Hi Hj Hshare.
    destruct (parseYamlJson yamlJson lang) as [t|fds] eqn:Hp; [eauto|].
    exfalso. destruct (parseYamlJson_inr _ _ _ _ He Hp) as [Hm Hnd].
    destruct (mapEntries_lookup _ _ _ _ _ _ Hm Hi) as (fdi & Hfi & [_ Hki]%fieldDefinitionOf_inv).
    destruct (mapEntries_lookup _ _ _ _ _ _ Hm Hj) as (fdj & Hfj & [_ Hkj]%fieldDefinitionOf_inv).
    rewrite Hki, Hkj in Hshare. injection Hshare as Hshare.
    apply Hij. eapply (NoDup_lookup _ i j _ Hnd); rewrite list_lookup_fmap.
    + by rewrite Hfi.
    + rewrite Hfj. simpl. by rewrite Hshare.
  - intros fds Hm. erewrite parseYamlJson_entries by done.
    destruct (first_duplicate _ _) as [k|] eqn:Hd.
    + right. apply first_duplicate_Some in Hd as (pre & post & Heq & Hnd & _ & Hin).
      exists pre, k, post. split_and!; try done.
      destruct Hin as [Hin|Hin]; [by apply elem_of_nil in Hin|done].
    + left. by apply first_duplicate_None in Hd as [? _].
  - intros fds Hp. destruct (parseYamlJson_inr _ _ _ _ He Hp) as [Hm Hnd].
    split_and!; [done| |done]. by eapply mapEntries_length.
Qed.

Lemma duplicate_dataKey_rejected_witness :
  Object_entries duplicate_document = inr (own_props duplicate_document)
  ∧ ∃ t, parseYamlJson duplicate_document "en" = inl t.
Proof.
  split; [reflexivity|].
  destruct (duplicate_dataKey_rejected "en" duplicate_document _ eq_refl)
    as [Hshared _].
  eapply (Hshared 0 1 "first" _ "second" _); [lia|reflexivity..].
Defined.

(** ** Failing entries *)

Lemma mapEntries_app lang entries1 entries2 :
  mapEntries lang (entries1 ++ entries2) =
  let! fds1 := mapEntries lang entries1 in
  let! fds2 := mapEntries lang entries2 in
  inr (fds1 ++ fds2)%list.
Proof.
  induction entries1 as [|entry entries1 IH]; simpl.
  - by destruct (mapEntries lang entries2).
  - destruct (fieldDefinitionOf lang entry); [done|]. rewrite IH.
    destruct (mapEntries lang entries1); [done|].
    by destruct (mapEntries lang entries2).
Qed.

Lemma mapEntries_failing lang pre entry post t :
  fieldDefinitionOf lang entry = inl t →
  (∃ t', mapEntries lang (pre ++ entry :: post) = inl t')
  ∧ (∀ fds, mapEntries lang pre = inr fds →
       mapEntries lang (pre ++ entry :: post) = inl t).
Proof.
  intros Hf. rewrite mapEntries_app. simpl. rewrite Hf.
  destruct (mapEntries lang pre); split; eauto; by intros ? [=].
Qed.

Lemma parseYamlJson_failing yamlJson lang pre entry post t :
  Object_entries yamlJson = inr (pre ++ entry :: post) →
  fieldDefinitionOf lang entry = inl t →
  (∃ t', parseYamlJson yamlJson lang = inl t')
  ∧ (∀ fds, mapEntries lang pre = inr fds → parseYamlJson yamlJson lang = inl t).
Proof.
  intros He Hf. unfold parseYamlJson. rewrite He.
  destruct (mapEntries_failing lang pre entry post t Hf) as [[t' Ht'] Hfirst].
  split.
  - rewrite Ht'. eauto.
  - intros fds Hpre. by rewrite (Hfirst fds Hpre).
Qed.

Lemma localizeField_label_missing name rawField lang :
  label_missing lang (get_prop (own_props rawField) "label") = true →
  localizeField name rawField lang =
  throw ConfigurationError (missing_label name lang).
Proof.
  unfold localizeField, localizeLabel. by intros ->.
Qed.

Lemma fieldDefinitionOf_label_missing name rawField lang :
  label_missing lang (get_prop (own_props rawField) "label") = true →
  fieldDefinitionOf lang (name, rawField) =
  throw ConfigurationError (missing_label name lang).
Proof.
  intros H. unfold fieldDefinitionOf.
  by rewrite localizeField_label_missing.
Qed.


Lemma label_missing_absent lang field :
  lookup_prop "label" field = None →
  label_missing lang (get_prop field "label") = true.
Proof. unfold get_prop. by intros ->. Qed.











(** C10: an empty-string label, and a label mapping whose entry for the
    active language is the empty string, are rejected with the missing-label
    configuration error, exactly as an entry without a label is: the entry
    fails with that error, and the document parses to the same failure as
    with the label removed. *)
Theorem empty_label_is_missing lang name rawField :
  (get_prop (own_props rawField) "label" = JStr ""
   ∨ ∃ m, get_prop (own_props rawField) "label" = JObj m
          ∧ lookup_prop lang m = Some (JStr "")) →
  fieldDefinitionOf lang (name, rawField) =
    throw ConfigurationError (missing_label name lang)
  ∧ ∀ unlabelled,
      lookup_prop "label" (own_props unlabelled) = None →
      fieldDefinitionOf lang (name, unlabelled) =
        fieldDefinitionOf lang (name, rawField)
      ∧ ∀ pre post,
          parseYamlJson (JObj (pre ++ (name, rawField) :: post)) lang =
            parseYamlJson (JObj (pre ++ (name, unlabelled) :: post)) lang
          ∧ (∃ t, parseYamlJson (JObj (pre ++ (name, rawField) :: post)) lang = inl t)
          ∧ (∀ fds, mapEntries lang pre = inr fds →
               parseYamlJson (JObj (pre ++ (name, rawField) :: post)) lang =
                 throw ConfigurationError (missing_label name lang)).
Proof.
  intros Hlabel.
  assert (fieldDefinitionOf lang (name, rawField) =
            throw ConfigurationError (missing_label name lang)) as Hf.
  { apply fieldDefinitionOf_label_missing. unfold label_missing.
    destruct Hlabel as [->|(m & -> & Hm)]; [done|].
    simpl. unfold get_prop. by rewrite Hm. }
  split; [done|]. intros unlabelled Hun.
  assert (fieldDefinitionOf lang (name, unlabelled) =
            throw ConfigurationError (missing_label name lang)) as Hu.
  { by apply fieldDefinitionOf_label_missing, label_missing_absent. }
  split; [by rewrite Hf, Hu|]. intros pre post.
  destruct (parseYamlJson_failing (JObj (pre ++ (name, rawField) :: post))
              lang pre _ post _ eq_refl Hf) as [Hfail Hfirst].
  split_and!; [|done|done].
  unfold parseYamlJson. simpl. rewrite !mapEntries_app. simpl.
  by rewrite Hf, Hu.
Qed.

Lemma empty_label_is_missing_witness :
  fieldDefinitionOf "en" ("a", empty_label_field) =
    throw ConfigurationError "Missing label for field 'a' (lang=en)".
Proof.
  destruct (empty_label_is_missing "en" "a" empty_label_field) as [H _].
  - left. reflexivity.
  - exact H.
Defined.

(** ** The hook *)

Section HookProperties.

Import Hook.

Variable parse : string → thrown + value.
Variable DEFAULT_LOCALE : string.

Local Abbreviation fetchEffect := (Hook.fetchEffect DEFAULT_LOCALE).
Local Abbreviation parseEffect := (Hook.parseEffect parse DEFAULT_LOCALE).
Local Abbreviation activeLanguage := (Hook.activeLanguage DEFAULT_LOCALE).
Local Abbreviation step := (Hook.step parse DEFAULT_LOCALE).
Local Abbreviation run := (Hook.run parse DEFAULT_LOCALE).

#[local] Arguments Hook.parseEffect : simpl never.
#[local] Arguments Hook.fetchEffect : simpl never.

Lemma app_singleton_neq {A} (l : list A) x : l ≠ l ++ [x].
Proof. intros H. apply (f_equal length) in H. rewrite length_app in H. simpl in H. lia. Qed.

(** The second effect with a cached document: one parse is recorded and
    the state reflects its outcome. *)
Lemma parseEffect_cached w fetched :
  fetchedYaml (state w) = Some fetched →
  let lang := activeLanguage (language w) in
  calls (parseEffect w) = calls w ++ [ParseYamlConfig (yaml fetched) lang]
  ∧ language (parseEffect w) = language w
  ∧ inFlight (parseEffect w) = inFlight w
  ∧ fetchedYaml (state (parseEffect w)) = Some fetched
  ∧ loading (state (parseEffect w)) = false
  ∧ match parseYamlConfig parse (yaml fetched) lang with
    | inr fds =>
        fields (state (parseEffect w)) = fds
        ∧ error (state (parseEffect w)) = None
    | inl t =>
        fields (state (parseEffect w)) = fields (state w)
        ∧ error (state (parseEffect w)) =
          Some (asError t "Error parsing configuration")
    end.
Proof.
  intros Hf. unfold Hook.parseEffect. rewrite Hf.
  simpl. split_and!; try done.
  - by destruct (parseYamlConfig _ _ _).
  - by destruct (parseYamlConfig _ _ _).
Qed.

Lemma parseEffect_uncached w :
  fetchedYaml (state w) = None → parseEffect w = w.
Proof. intros Hf. unfold Hook.parseEffect. by rewrite Hf. Qed.

Lemma fetchEffect_cached w :
  is_Some (fetchedYaml (state w)) → fetchEffect w = w.
Proof. intros [? Hf]. unfold Hook.fetchEffect. by rewrite Hf. Qed.

Lemma fetchEffect_uncached w :
  fetchedYaml (state w) = None →
  fetchEffect w =
  mkWorld (setLoading true (state w)) (language w)
    (inFlight w ++ [activeLanguage (language w)])
    (calls w ++ [CustomFetch (configPath (activeLanguage (language w)))]).
Proof. intros Hf. unfold Hook.fetchEffect. by rewrite Hf. Qed.

(** A language change, by cases on the cached document. *)
Lemma step_language_cached w language' :
  is_Some (fetchedYaml (state w)) →
  language' ≠ language w →
  step w (LanguageChanged language') =
  parseEffect (mkWorld (state w) language' (inFlight w) (calls w)).
Proof.
  intros Hf Hl. unfold Hook.step. rewrite decide_False by done.
  by rewrite fetchEffect_cached.
Qed.

Lemma step_language_uncached w language' :
  fetchedYaml (state w) = None →
  language' ≠ language w →
  step w (LanguageChanged language') =
  mkWorld (setLoading true (state w)) language'
    (inFlight w ++ [activeLanguage language'])
    (calls w ++ [CustomFetch (configPath (activeLanguage language'))]).
Proof.
  intros Hf Hl. unfold Hook.step. rewrite decide_False by done.
  rewrite fetchEffect_uncached by done. by rewrite parseEffect_uncached.
Qed.

Lemma step_language_same w : step w (LanguageChanged (language w)) = w.
Proof. unfold Hook.step. by rewrite decide_True. Qed.

Lemma fetches_app cs1 cs2 : fetches (cs1 ++ cs2) = fetches cs1 ++ fetches cs2.
Proof. apply omap_app. Qed.

(** Once a document is cached it stays cached, and no step fetches. *)
Lemma step_cached w e :
  is_Some (fetchedYaml (state w)) →
  is_Some (fetchedYaml (state (step w e)))
  ∧ fetches (calls (step w e)) = fetches (calls w).
Proof.
  intros Hf. destruct e as [language'|request outcome].
  - destruct (decide (language' = language w)) as [->|Hne].
    + by rewrite step_language_same.
    + rewrite step_language_cached by done. destruct Hf as [fetched Hf].
      destruct (parseEffect_cached
                  (mkWorld (state w) language' (inFlight w) (calls w))
                  fetched Hf) as (Hc & _ & _ & Hf' & _).
      rewrite Hf', Hc, fetches_app. simpl. by rewrite app_nil_r.
  - unfold Hook.step. destruct (inFlight w !! request) as [lang|]; [|done].
    destruct outcome as [t|yamlText]; unfold Hook.settle; [done|].
    match goal with |- context [Hook.parseEffect _ _ ?w0] =>
      destruct (parseEffect_cached w0 _ eq_refl) as (Hc & _ & _ & Hf' & _)
    end.
    rewrite Hf', Hc, fetches_app. simpl. by rewrite app_nil_r.
Qed.

Lemma run_cached w events :
  is_Some (fetchedYaml (state w)) →
  is_Some (fetchedYaml (state (run w events)))
  ∧ fetches (calls (run w events)) = fetches (calls w).
Proof.
  revert w. induction events as [|e events IH]; intros w Hf; simpl; [done|].
  destruct (step_cached w e Hf) as [Hf' Hc].
  destruct (IH _ Hf') as [Hf'' Hc']. split; [done|]. by rewrite Hc', Hc.
Qed.

(** What a step records: nothing, one fetch or one parse. *)
Lemma step_calls w e :
  calls (step w e) = calls w
  ∨ (∃ lang, fetchedYaml (state w) = None
       ∧ step w e =
         mkWorld (setLoading true (state w)) (language (step w e))
           (inFlight w ++ [lang]) (calls w ++ [CustomFetch (configPath lang)]))
  ∨ (∃ w0 fetched,
       fetchedYaml (state w0) = Some fetched
       ∧ fields (state w0) = fields (state w)
       ∧ calls w0 = calls w
       ∧ step w e = parseEffect w0).
Proof.
  destruct e as [language'|request outcome].
  - destruct (decide (language' = language w)) as [->|Hne].
    { left. by rewrite step_language_same. }
    destruct (fetchedYaml (state w)) as [fetched|] eqn:Hf.
    + right; right. rewrite step_language_cached by (by rewrite ?Hf).
      by exists (mkWorld (state w) language' (inFlight w) (calls w)), fetched.
    + right; left. rewrite step_language_uncached by done. simpl. eauto.
  - unfold Hook.step. destruct (inFlight w !! request) as [lang|]; [|by left].
    destruct outcome as [t|yamlText]; unfold Hook.settle; [by left|].
    right; right.
    eexists (mkWorld _ _ _ _), (mkFetched yamlText lang). simpl.
    split_and!; [| | |reflexivity]; done.
Qed.

(** C1, as amended: once a document has been fetched, whatever its
    language, no later event triggers network I/O, be it a request for the
    same or for another language; as long as none has been fetched, every
    change of the active language triggers a fetch of the configuration for
    the new language. *)
Theorem fetch_until_first_document w :
  (is_Some (fetchedYaml (state w)) →
   ∀ events, fetches (calls (run w events)) = fetches (calls w))
  ∧ (fetchedYaml (state w) = None →
     ∀ language', language' ≠ language w →
       fetches (calls (step w (LanguageChanged language'))) =
       fetches (calls w) ++ [configPath (activeLanguage language')]).
Proof.
  split.
  - intros Hf events. by apply run_cached.
  - intros Hf language' Hne. rewrite step_language_uncached by done.
    simpl. by rewrite fetches_app.
Qed.

(** C2: once a raw document is cached, every later change of the active
    language fetches nothing and parses the cached text for the new
    language; a successful parse replaces the fields, and the parse does
    succeed, with the sequence localised for the new language, when the
    document is valid for that language. *)
Theorem language_change_reparses w events language' :
  is_Some (fetchedYaml (state w)) →
  let w1 := run w events in
  let w2 := step w1 (LanguageChanged language') in
  let lang := activeLanguage language' in
  language' ≠ language w1 →
  ∃ fetched,
    fetchedYaml (state w1) = Some fetched
    ∧ fetchedYaml (state w2) = Some fetched
    ∧ calls w2 = calls w1 ++ [ParseYamlConfig (yaml fetched) lang]
    ∧ fetches (calls w2) = fetches (calls w)
    ∧ inFlight w2 = inFlight w1
    ∧ (∀ fds,
         parseYamlConfig parse (yaml fetched) lang = inr fds →
         fields (state w2) = fds
         ∧ error (state w2) = None
         ∧ loading (state w2) = false)
    ∧ ∀ entries,
        parse (yaml fetched) = inr (JObj entries) →
        valid_document lang (JObj entries) = true →
        ∃ fds,
          parseYamlJson (JObj entries) lang = inr fds
          ∧ Types.name <$> fds = entries.*1
          ∧ fields (state w2) = fds
          ∧ error (state w2) = None
          ∧ loading (state w2) = false.
Proof.
  intros Hf w1 w2 lang Hne.
  destruct (run_cached w events Hf) as [[fetched Hf1] Hc1].
  fold w1 in Hf1, Hc1. exists fetched. split; [done|].
  subst w2. rewrite step_language_cached by (by rewrite ?Hf1).
  destruct (parseEffect_cached
              (mkWorld (state w1) language' (inFlight w1) (calls w1))
              fetched Hf1) as (Hc & _ & Hi & Hf2 & Hl & Hp).
  simpl in *. fold lang in Hc, Hp.
  split_and!; try done.
  - by rewrite Hc, fetches_app, app_nil_r.
  - intros fds Hfds. rewrite Hfds in Hp. by destruct Hp.
  - intros entries Hparse Hvalid.
    destruct (mapEntries_valid lang entries) as (fds & Hm & Hn & Hk).
    { unfold valid_document in Hvalid. by apply andb_true_iff in Hvalid as [? _]. }
    assert (parseYamlJson (JObj entries) lang = inr fds) as Hjson.
    { erewrite parseYamlJson_entries; [|done|done].
      assert (first_duplicate [] (Types.dataKey <$> fds) = None) as ->; [|done].
      apply first_duplicate_None. split; [|by intros k _ ?%elem_of_nil].
      unfold valid_document in Hvalid.
      apply andb_true_iff in Hvalid as [_ Hnd%bool_decide_eq_true].
      rewrite <- Hk, list_fmap_compose in Hnd. by apply NoDup_fmap_1 in Hnd. }
    exists fds. unfold parseYamlConfig in Hp. rewrite Hparse, Hjson in Hp.
    destruct Hp as [Hfields Herr]. done.
Qed.

(** C7: every parsing attempt leaves [loading] false; when the parse
    succeeds the fields are the new sequence and the error is null; when it
    fails the error is set and the fields are the previous ones. *)
Theorem parsing_attempt_outcome w e yamlText lang :
  calls (step w e) = calls w ++ [ParseYamlConfig yamlText lang] →
  loading (state (step w e)) = false
  ∧ match parseYamlConfig parse yamlText lang with
    | inr fds =>
        fields (state (step w e)) = fds ∧ error (state (step w e)) = None
    | inl t =>
        error (state (step w e)) = Some (asError t "Error parsing configuration")
        ∧ fields (state (step w e)) = fields (state w)
    end.
Proof.
  intros Hcalls.
  destruct (step_calls w e) as [Hc|[(l & _ & Hs)|(w0 & fetched & Hf & Hfs & Hc0 & Hs)]].
  - rewrite Hc in Hcalls. by apply app_singleton_neq in Hcalls.
  - rewrite Hs in Hcalls. simpl in Hcalls. by apply app_inv_head in Hcalls.
  - rewrite Hs in *.
    destruct (parseEffect_cached w0 fetched Hf) as (Hc & _ & _ & _ & Hl & Hp).
    rewrite Hc, Hc0 in Hcalls. apply app_inv_head in Hcalls.
    injection Hcalls as <- <-. split; [done|].
    destruct (parseYamlConfig _ _ _); [rewrite <- Hfs|]; naive_solver.
Qed.

(** C8, as amended: whatever is thrown during the fetch or the parse ends
    in the error state.  An [Error] instance, of whatever class, is surfaced
    as it is; only a thrown value that is not an [Error] instance is replaced
    by a generic [Error] with a descriptive message. *)
Theorem thrown_values_surface :
  (∀ w request lang t,
     inFlight w !! request = Some lang →
     error (state (step w (FetchSettled request (inl t)))) =
       Some (asError t "Unknown error loading configuration"))
  ∧ (∀ w e yamlText lang t,
       calls (step w e) = calls w ++ [ParseYamlConfig yamlText lang] →
       parseYamlConfig parse yamlText lang = inl t →
       error (state (step w e)) =
         Some (asError t "Error parsing configuration"))
  ∧ (∀ e message, asError (ThrowError e) message = e)
  ∧ (∀ v message, asError (ThrowValue v) message = mkError GenericError message).
Proof.
  split_and!; try done.
  - intros w request lang t Hin. unfold Hook.step. by rewrite Hin.
  - intros w e yamlText lang t Hcalls Hp.
    destruct (step_calls w e) as [Hc|[(l & _ & Hs)|(w0 & fetched & Hf & Hfs & Hc0 & Hs)]].
    + rewrite Hc in Hcalls. by apply app_singleton_neq in Hcalls.
    + rewrite Hs in Hcalls. simpl in Hcalls. by apply app_inv_head in Hcalls.
    + rewrite Hs in *.
      destruct (parseEffect_cached w0 fetched Hf) as (Hc & _ & _ & _ & Hl & Hp').
      rewrite Hc, Hc0 in Hcalls. apply app_inv_head in Hcalls.
      injection Hcalls as <- <-. rewrite Hp in Hp'. by destruct Hp'.
Qed.

End HookProperties.

Lemma fetch_until_first_document_witness :
  Hook.fetches
    (Hook.calls
       (Hook.run (parse_as sample_document) "en" cached_world
          [Hook.LanguageChanged (Some "es"); Hook.LanguageChanged (Some "en")])) =
  Hook.fetches (Hook.calls cached_world)
  ∧ Hook.fetches
      (Hook.calls
         (Hook.step (parse_as sample_document) "en" mounted_world
            (Hook.LanguageChanged (Some "es")))) =
    Hook.fetches (Hook.calls mounted_world) ++ ["/data/config/fields-es.yaml"].
Proof.
  split.
  - destruct (fetch_until_first_document (parse_as sample_document) "en"
                cached_world) as [H _].
    apply H. vm_compute. eauto.
  - destruct (fetch_until_first_document (parse_as sample_document) "en"
                mounted_world) as [_ H].
    apply (H eq_refl (Some "es")). discriminate.
Defined.

(** C1 as stated fails: with the English document fetched, the request for
    Spanish, for which nothing was fetched before, triggers no fetch. *)
Lemma fetch_until_first_document_counterexample :
  Hook.fetches (Hook.calls cached_world) = ["/data/config/fields-en.yaml"]
  ∧ Hook.fetches
      (Hook.calls
         (Hook.step (parse_as sample_document) "en" cached_world
            (Hook.LanguageChanged (Some "es")))) =
    ["/data/config/fields-en.yaml"].
Proof. split; reflexivity. Qed.

Lemma language_change_reparses_witness :
  ∃ fds,
    parseYamlJson sample_document "es" = inr fds
    ∧ Hook.fields
        (Hook.state
           (Hook.step (parse_as sample_document) "en" cached_world
              (Hook.LanguageChanged (Some "es")))) = fds
    ∧ Types.label <$> fds = ["Nombre"; "País"].
Proof.
  destruct (language_change_reparses (parse_as sample_document) "en"
              cached_world [] (Some "es")) as (fetched & _ & _ & _ & _ & _ & _ & H).
  - vm_compute. eauto.
  - discriminate.
  - destruct (H (own_props sample_document) eq_refl eq_refl)
      as (fds & Hfds & _ & Hfields & _).
    exists fds. split_and!; [done|done|].
    vm_compute in Hfds. injection Hfds as <-. reflexivity.
Defined.

Lemma parsing_attempt_outcome_witness :
  Hook.loading
    (Hook.state
       (Hook.step (parse_as sample_document) "en" cached_world
          (Hook.LanguageChanged (Some "fr")))) = false
  ∧ Hook.fields
      (Hook.state
         (Hook.step (parse_as sample_document) "en" cached_world
            (Hook.LanguageChanged (Some "fr")))) =
    Hook.fields (Hook.state cached_world).
Proof.
  destruct (parsing_attempt_outcome (parse_as sample_document) "en"
              cached_world (Hook.LanguageChanged (Some "fr")) "fields" "fr"
              eq_refl) as [Hloading Hparse].
  split; [exact Hloading|].
  vm_compute in Hparse. destruct Hparse as [_ Hfields]. exact Hfields.
Defined.

Lemma thrown_values_surface_witness :
  Hook.error
    (Hook.state
       (Hook.step (parse_as sample_document) "en" mounted_world
          (Hook.FetchSettled 0 (inl (ThrowValue (JStr "offline")))))) =
  Some (mkError GenericError "Unknown error loading configuration").
Proof.
  destruct (thrown_values_surface (parse_as sample_document) "en") as [H _].
  apply (H mounted_world 0 "en" (ThrowValue (JStr "offline"))).
  reflexivity.
Defined.

(** C8 as stated fails: the empty YAML document parses to [null], the
    [TypeError] that [Object.entries] then raises is neither a network nor a
    configuration error, and it reaches the error state as it is, not as a
    generic error with a descriptive message. *)
Lemma thrown_values_surface_counterexample :
  Hook.error
    (Hook.state
       (Hook.run (parse_as JNull) "en" (Hook.mount (parse_as JNull) "en" (Some "en"))
          [Hook.FetchSettled 0 (inr "")])) =
  Some (mkError TypeError "Cannot convert undefined or null to object").
Proof. reflexivity. Qed.

(** ** Localisation over the store *)

Lemma alloc_prefix (σ0 σ : Store.store) o :
  σ0 `prefix_of` σ → σ0 `prefix_of` (Store.alloc σ o).1.
Proof. intros [ext ->]. exists (ext ++ [o]). simpl. by rewrite app_assoc. Qed.

Lemma assign_prefix (σ0 σ : Store.store) l k v :
  σ0 `prefix_of` σ → length σ0 ≤ l → σ0 `prefix_of` Store.assign σ l k v.
Proof.
  intros [ext ->] Hl. unfold Store.assign.
  destruct ((σ0 ++ ext) !! l) as [[ps|xs]|]; try by eexists.
  rewrite insert_app_r_alt by done. by eexists.
Qed.

Lemma assign_length (σ : Store.store) l k v :
  length (Store.assign σ l k v) = length σ.
Proof.
  unfold Store.assign. destruct (σ !! l) as [[ps|xs]|]; try done.
  by rewrite length_insert.
Qed.

Lemma localizeLabel_prefix (σ0 σ : Store.store) name lang field :
  σ0 `prefix_of` σ → length σ0 ≤ field →
  σ0 `prefix_of` (Store.localizeLabel σ name lang field).1.
Proof.
  intros Hp Hl. unfold Store.localizeLabel.
  repeat case_match; simpl; try done. by apply assign_prefix.
Qed.

Lemma localizeLabel_field (σ : Store.store) name lang field σ' field' :
  Store.localizeLabel σ name lang field = (σ', inr field') → field' = field.
Proof. unfold Store.localizeLabel. repeat case_match; naive_solver. Qed.

Lemma localizeValues_prefix (σ0 σ : Store.store) lang field :
  σ0 `prefix_of` σ → length σ0 ≤ field →
  σ0 `prefix_of` Store.localizeValues σ lang field.
Proof.
  intros Hp Hl. unfold Store.localizeValues.
  case_match; [by apply assign_prefix|done].
Qed.

Lemma localizeValidation_prefix (σ0 σ : Store.store) lang field :
  σ0 `prefix_of` σ → length σ0 ≤ field →
  σ0 `prefix_of` Store.localizeValidation σ lang field.
Proof.
  intros Hp Hl. unfold Store.localizeValidation.
  case_match; [|done]. apply assign_prefix; [|done].
  by apply (alloc_prefix σ0 σ).
Qed.

Lemma localizeField_prefix (σ : Store.store) name rawField lang :
  σ `prefix_of` (Store.localizeField σ name rawField lang).1.
Proof.
  unfold Store.localizeField. simpl.
  pose proof (localizeLabel_prefix σ
    (σ ++ [Store.OObj (Store.own_props σ rawField)]) name lang (length σ)) as Hlabel.
  destruct (Store.localizeLabel _ name lang (length σ)) as [σ1 [t|field]] eqn:Hl;
    simpl in *.
  - apply Hlabel; [by eexists|done].
  - apply localizeLabel_field in Hl as ->.
    assert (σ `prefix_of` σ1) as H1 by (apply Hlabel; [by eexists|done]).
    apply localizeValidation_prefix; [|done].
    by apply localizeValues_prefix.
Qed.

Lemma localizeEntries_prefix (σ : Store.store) entries lang :
  σ `prefix_of` (Store.localizeEntries σ entries lang).1.
Proof.
  revert σ. induction entries as [|[name rawField] entries IH]; intros σ; simpl.
  - done.
  - pose proof (localizeField_prefix σ name rawField lang) as H1.
    destruct (Store.localizeField σ name rawField lang) as [σ1 [t|field]]; [done|].
    pose proof (IH σ1) as H2.
    destruct (Store.localizeEntries σ1 entries lang) as [σ2 [t|fields]];
      simpl in *; by etrans.
Qed.

(** Reading a tree off the store only looks at the objects it reaches, so
    the tree stays the same when the store is extended. *)
Lemma reify_prefix depth (σ σ' : Store.store) v x :
  σ `prefix_of` σ' →
  Store.reify depth σ v = Some x → Store.reify depth σ' v = Some x.
Proof.
  intros Hp. revert v x. induction depth as [|depth IH]; intros v x;
    destruct v as [| | | | |l]; simpl; try done.
  destruct (σ !! l) as [o|] eqn:Hl; [|done].
  rewrite (prefix_lookup_Some _ _ _ _ Hl Hp).
  destruct o as [ps|xs].
  - unfold Store.reify_props.
    destruct (mapM _ ps) as [ps'|] eqn:Hps; [|done]. intros [= <-].
    apply mapM_Some in Hps. erewrite (proj2 (mapM_Some _ _ _)); [done|].
    eapply Forall2_impl; [done|]. intros [k v] [k' x'] Hkv. simpl in *.
    destruct (Store.reify depth σ v) as [y|] eqn:Hv; [|done].
    by rewrite (IH _ _ Hv).
  - destruct (mapM _ xs) as [xs'|] eqn:Hxs; [|done]. intros [= <-].
    apply mapM_Some in Hxs. erewrite (proj2 (mapM_Some _ _ _)); [done|].
    eapply Forall2_impl; [done|]. intros v x' Hv. by apply IH.
Qed.

(** C9: localisation does not mutate the raw document.  However many
    entries the traversal visits, the store is only extended (every object
    that existed before is unchanged), and the tree read off the raw document
    afterwards is the tree read off it before. *)
Theorem localisation_preserves_raw_document
    (σ : Store.store) yamlJson lang depth document visited :
  Store.reify depth σ yamlJson = Some document →
  let entries := take visited (Store.own_props σ yamlJson) in
  let σ' := (Store.localizeEntries σ entries lang).1 in
  (∀ l o, σ !! l = Some o → σ' !! l = Some o)
  ∧ Store.reify depth σ' yamlJson = Some document.
Proof.
  intros Hdoc entries σ'.
  pose proof (localizeEntries_prefix σ entries lang) as Hp.
  split.
  - intros l o Hl. by eapply prefix_lookup_Some.
  - by eapply reify_prefix.
Qed.

Lemma localisation_preserves_raw_document_witness :
  ∃ document,
    Store.reify 4 sample_store (Store.VRef 4) = Some document
    ∧ Store.reify 4
        (Store.localizeEntries sample_store
           (Store.own_props sample_store (Store.VRef 4)) "es").1
        (Store.VRef 4) = Some document
    ∧ Store.reify 4
        (Store.localizeEntries sample_store
           (Store.own_props sample_store (Store.VRef 4)) "es").1
        (Store.VRef 5) =
      Some (JObj [ ("type", JStr "STRING"); ("label", JStr "Nombre");
                   ("validation",
                    JObj [("errorMessage", JStr "Obligatorio"); ("pattern", JStr ".+")]);
                   ("dataKey", JStr "firstName") ]).
Proof.
  eexists. split; [vm_compute; reflexivity|]. split; [|reflexivity].
  apply (localisation_preserves_raw_document sample_store (Store.VRef 4) "es" 4 _ 1).
  reflexivity.
Defined.

(** ** The store rendering against the functional one

    The localisation over the store computes, on the tree a raw field stands
    for, what [localizeField] computes. *)

Lemma reify_props_Some f ps ps' :
  Store.reify_props f ps = Some ps' ↔ Store.props_related f ps ps'.
Proof.
  unfold Store.reify_props, Store.props_related. rewrite mapM_Some.
  split; intros H; (eapply Forall2_impl; [done|]);
    intros [k v] [k' x]; simpl; destruct (f v); simpl; naive_solver.
Qed.

Lemma props_related_impl (f g : Store.ref_value → option value) ps ps' :
  Store.props_related f ps ps' →
  (∀ v x, f v = Some x → g v = Some x) →
  Store.props_related g ps ps'.
Proof.
  intros H Hfg. eapply Forall2_impl; [done|]. naive_solver.
Qed.

Lemma props_related_get f ps ps' k :
  f Store.VUndefined = Some JUndefined →
  Store.props_related f ps ps' →
  f (Store.get_prop ps k) = Some (get_prop ps' k).
Proof.
  intros Hu. unfold Store.get_prop, get_prop.
  induction 1 as [|[k1 v] [k2 x] ps ps' [Hk Hv] _ IH]; simpl in *; [done|].
  subst k2. by destruct (String.eqb k1 k).
Qed.

Lemma props_related_set f ps ps' k v x :
  Store.props_related f ps ps' → f v = Some x →
  Store.props_related f (Store.set_prop ps k v) (set_prop ps' k x).
Proof.
  intros H Hv.
  induction H as [|[k1 v1] [k2 x1] ps ps' [Hk Hv1] Hrest IH]; simpl in *.
  - by repeat constructor.
  - subst k2. destruct (String.eqb k1 k); by constructor.
Qed.

Lemma props_related_indexed f xs xs' :
  Forall2 (λ v x, f v = Some x) xs xs' →
  Store.props_related f (Store.indexed xs) (indexed xs').
Proof.
  unfold Store.indexed, indexed, Store.props_related.
  generalize (@pretty nat _). intros g H. revert g.
  induction H as [|v x xs xs' Hv _ IH]; intros g; simpl; [constructor|].
  constructor; [done|]. apply (IH (g ∘ S)).
Qed.

Lemma props_related_chars f s :
  (∀ c, f (Store.VStr c) = Some (JStr c)) →
  Store.props_related f (Store.indexed (Store.chars s)) (indexed (chars s)).
Proof.
  intros Hf. apply props_related_indexed. unfold Store.chars, chars.
  induction (String.list_ascii_of_string s); simpl; constructor; auto.
Qed.

Lemma reify_mono (σ : Store.store) n m v x :
  n ≤ m → Store.reify n σ v = Some x → Store.reify m σ v = Some x.
Proof.
  revert m v x. induction n as [|n IH]; intros m v x Hnm;
    destruct v as [| | | | |l]; destruct m as [|m]; simpl; try done; try lia.
  destruct (σ !! l) as [[ps|xs]|]; [| |done].
  - destruct (Store.reify_props _ ps) as [ps'|] eqn:Hps; [|done]. intros [= <-].
    apply reify_props_Some in Hps.
    erewrite (proj2 (reify_props_Some _ _ _)); [done|].
    eapply props_related_impl; [done|]. intros ??. apply IH. lia.
  - destruct (mapM _ xs) as [xs'|] eqn:Hxs; [|done]. intros [= <-].
    apply mapM_Some in Hxs. erewrite (proj2 (mapM_Some _ _ _)); [done|].
    eapply Forall2_impl; [done|]. intros ??. apply IH. lia.
Qed.

Section Refinement.

Variable σ0 : Store.store.
Variable depth : nat.

Local Abbreviation R := (Store.reify depth σ0).

Lemma reify_observers v x :
  R v = Some x →
  Store.ToBoolean v = ToBoolean x
  ∧ Store.typeof_object v = typeof_object x.
Proof.
  destruct v as [| | | | |l]; destruct depth; simpl; try by intros [= <-].
  destruct (σ0 !! l) as [[ps|xs]|]; [| |done].
  - destruct (Store.reify_props _ _); [|done]. by intros [= <-].
  - destruct (mapM _ _); [|done]. by intros [= <-].
Qed.

Lemma reify_undefined : R Store.VUndefined = Some JUndefined.
Proof. by destruct depth. Qed.

Lemma reify_isArray (σ : Store.store) v x :
  σ0 `prefix_of` σ → R v = Some x → Store.isArray σ v = isArray x.
Proof.
  intros Hp.
  destruct v as [| | | | |l]; destruct depth; simpl; try by intros [= <-].
  destruct (σ0 !! l) as [o|] eqn:Hl; [|done].
  rewrite (prefix_lookup_Some _ _ _ _ Hl Hp). destruct o as [ps|xs].
  - destruct (Store.reify_props _ _); [|done]. by intros [= <-].
  - destruct (mapM _ _); [|done]. by intros [= <-].
Qed.

Lemma reify_ref_inv l x :
  R (Store.VRef l) = Some x →
  ∃ d, depth = S d
    ∧ ((∃ ps ps', σ0 !! l = Some (Store.OObj ps) ∧ x = JObj ps'
          ∧ Store.props_related (Store.reify d σ0) ps ps')
       ∨ (∃ xs xs', σ0 !! l = Some (Store.OArr xs) ∧ x = JArr xs'
            ∧ Forall2 (λ v y, Store.reify d σ0 v = Some y) xs xs')).
Proof.
  destruct depth as [|d]; [done|]. simpl. intros H. exists d. split; [done|].
  destruct (σ0 !! l) as [[ps|xs]|]; [| |done].
  - destruct (Store.reify_props _ _) as [ps'|] eqn:Hps; [|done].
    injection H as <-. apply reify_props_Some in Hps. left. by eexists _, _.
  - destruct (mapM _ _) as [xs'|] eqn:Hxs; [|done].
    injection H as <-. apply mapM_Some in Hxs. right. by eexists _, _.
Qed.

Lemma reify_step d v x :
  depth = S d → Store.reify d σ0 v = Some x → R v = Some x.
Proof. intros ->. apply reify_mono. lia. Qed.

Lemma reify_primitive v x :
  (∀ l, v ≠ Store.VRef l) → R v = Some x →
  match v with
  | Store.VUndefined => x = JUndefined
  | Store.VNull => x = JNull
  | Store.VBool b => x = JBool b
  | Store.VNum n => x = JNum n
  | Store.VStr s => x = JStr s
  | Store.VRef _ => False
  end.
Proof.
  intros Hv. destruct v; destruct depth; simpl; try by intros [= <-].
  all: by destruct (Hv l).
Qed.

Lemma reify_own_props (σ : Store.store) v x :
  σ0 `prefix_of` σ → R v = Some x →
  Store.props_related R (Store.own_props σ v) (own_props x).
Proof.
  intros Hp HR. destruct v as [| | | | |l];
    try (apply reify_primitive in HR as ->; [|done]; cbn [Store.own_props own_props];
         first [by constructor | apply props_related_chars; intros c; by destruct depth]).
  apply reify_ref_inv in HR as (d & Hd & [(ps & ps' & Hl & -> & Hps)|(xs & xs' & Hl & -> & Hxs)]);
    cbn [Store.own_props own_props]; rewrite (prefix_lookup_Some _ _ _ _ Hl Hp).
  - eapply props_related_impl; [done|]. intros ??. by apply reify_step.
  - apply props_related_indexed.
    eapply Forall2_impl; [done|]. intros ??. by apply reify_step.
Qed.

Lemma reify_Get (σ : Store.store) v x k :
  σ0 `prefix_of` σ → R v = Some x →
  R (Store.Get σ v k) = Some (Get x k).
Proof.
  intros Hp HR. destruct v as [| | | | |l];
    try (apply reify_primitive in HR as ->; [|done]; cbn [Store.Get Get]).
  1-4: apply reify_undefined.
  - destruct (String.eqb k "length"); [by destruct depth|].
    apply props_related_get; [apply reify_undefined|].
    apply props_related_chars. intros c. by destruct depth.
  - apply reify_ref_inv in HR as (d & Hd & [(ps & ps' & Hl & -> & Hps)|(xs & xs' & Hl & -> & Hxs)]);
      cbn [Store.Get Get]; rewrite (prefix_lookup_Some _ _ _ _ Hl Hp).
    + apply props_related_get; [apply reify_undefined|].
      eapply props_related_impl; [done|]. intros ??. by apply reify_step.
    + rewrite (Forall2_length _ _ _ Hxs).
      destruct (String.eqb k "length"); [by destruct depth|].
      apply props_related_get; [apply reify_undefined|].
      apply props_related_indexed.
      eapply Forall2_impl; [done|]. intros ??. by apply reify_step.
Qed.

Lemma reify_GetOpt (σ : Store.store) v x k :
  σ0 `prefix_of` σ → R v = Some x →
  R (Store.GetOpt σ v k) = Some (GetOpt x k).
Proof.
  intros Hp HR. pose proof (reify_Get σ v x k Hp HR) as HG.
  destruct v as [| | | | |l];
    try (apply reify_primitive in HR as ->; [|done]; cbn [Store.GetOpt GetOpt]);
    try done; try apply reify_undefined.
  apply reify_ref_inv in HR as (d & Hd & [(ps & ps' & Hl & -> & Hps)|(xs & xs' & Hl & -> & Hxs)]);
    done.
Qed.

Lemma assign_lookup (σ : Store.store) field ps k v :
  σ !! field = Some (Store.OObj ps) →
  Store.assign σ field k v !! field = Some (Store.OObj (Store.set_prop ps k v))
  ∧ ∀ l, l ≠ field → Store.assign σ field k v !! l = σ !! l.
Proof.
  intros Hf. unfold Store.assign. rewrite Hf. split.
  - apply list_lookup_insert_eq. by eapply lookup_lt_Some.
  - intros l Hl. by apply list_lookup_insert_ne.
Qed.

Lemma Get_field (σ : Store.store) field ps k :
  σ !! field = Some (Store.OObj ps) →
  Store.Get σ (Store.VRef field) k = Store.get_prop ps k.
Proof. intros Hf. simpl. by rewrite Hf. Qed.

Local Abbreviation copy_at := (Store.copy_at σ0 depth).

Lemma copy_at_assign σ field p k v x :
  copy_at σ field p → R v = Some x →
  copy_at (Store.assign σ field k v) field (set_prop p k x).
Proof.
  intros (Hp & Hl & ps & Hf & Hps) Hv. split_and!; [by apply assign_prefix|done|].
  destruct (assign_lookup σ field ps k v Hf) as [Hf' _].
  eexists. split; [done|]. by apply props_related_set.
Qed.

Lemma copy_at_get σ field p k :
  copy_at σ field p →
  R (Store.Get σ (Store.VRef field) k) = Some (get_prop p k).
Proof.
  intros (Hp & Hl & ps & Hf & Hps). rewrite (Get_field _ _ _ _ Hf).
  apply props_related_get; [apply reify_undefined|done].
Qed.

Lemma localizeLabel_refines σ name lang field p :
  copy_at σ field p →
  match Store.localizeLabel σ name lang field with
  | (σ', inl t) => localizeLabel name lang p = inl t
  | (σ', inr field') =>
      field' = field
      ∧ ∃ p', localizeLabel name lang p = inr p' ∧ copy_at σ' field p'
  end.
Proof.
  intros Hc. pose proof Hc as (Hp & _).
  pose proof (copy_at_get σ field p "label" Hc) as Hlabel.
  pose proof (reify_Get σ _ _ lang Hp Hlabel) as Hentry.
  unfold Store.localizeLabel, localizeLabel, Store.label_missing, label_missing.
  destruct (reify_observers _ _ Hlabel) as [-> ->].
  destruct (reify_observers _ _ Hentry) as [-> _].
  destruct (negb (ToBoolean (get_prop p "label")) || _); [done|].
  destruct (typeof_object (get_prop p "label")).
  - split; [done|]. eexists. split; [done|]. by apply copy_at_assign.
  - split; [done|]. by eexists.
Qed.

Lemma localizeValues_refines σ lang field p :
  copy_at σ field p →
  copy_at (Store.localizeValues σ lang field) field (localizeValues lang p).
Proof.
  intros Hc. pose proof Hc as (Hp & _).
  pose proof (copy_at_get σ field p "values" Hc) as Hvalues.
  pose proof (reify_Get σ _ _ lang Hp Hvalues) as Hentry.
  unfold Store.localizeValues, localizeValues.
  destruct (reify_observers _ _ Hvalues) as [-> ->].
  rewrite (reify_isArray σ _ _ Hp Hvalues).
  destruct (_ && _ && _); [|done]. by apply copy_at_assign.
Qed.

Lemma reify_lift (σ : Store.store) v x :
  σ0 `prefix_of` σ → R v = Some x →
  Store.reify depth σ v = Some x ∧ Store.reify (S depth) σ v = Some x.
Proof.
  intros Hp HR. apply (reify_prefix _ _ _ _ _ Hp) in HR.
  split; [done|]. eapply reify_mono; [|done]. lia.
Qed.

Lemma copy_at_reify σ field p :
  copy_at σ field p →
  Store.reify (S (S depth)) σ (Store.VRef field) = Some (JObj p).
Proof.
  intros (Hp & Hl & ps & Hf & Hps). cbn [Store.reify]. rewrite Hf.
  erewrite (proj2 (reify_props_Some _ _ _)); [done|].
  eapply props_related_impl; [done|]. intros v x HR.
  by apply (reify_lift σ v x Hp).
Qed.

Lemma localizeValidation_refines σ lang field p :
  copy_at σ field p →
  Store.reify (S (S depth)) (Store.localizeValidation σ lang field)
    (Store.VRef field) = Some (JObj (localizeValidation lang p)).
Proof.
  intros Hc. pose proof Hc as (Hp & Hl & ps & Hf & Hps).
  pose proof (copy_at_get σ field p "validation" Hc) as Hvalidation.
  pose proof (reify_GetOpt σ _ _ "errorMessage" Hp Hvalidation) as Hmessage.
  pose proof (reify_Get σ _ _ lang Hp Hmessage) as Hentry.
  pose proof (reify_own_props σ _ _ Hp Hvalidation) as Hown.
  unfold Store.localizeValidation, localizeValidation.
  destruct (reify_observers _ _ Hmessage) as [-> ->].
  destruct (_ && _); [|by apply copy_at_reify].
  set (vps := Store.set_prop _ "errorMessage" _).
  set (vp := set_prop (own_props (get_prop p "validation")) "errorMessage" _).
  assert (Store.props_related R vps vp) as Hvps by (by apply props_related_set).
  cbn [Store.alloc]. set (σ1 := σ ++ [Store.OObj vps]).
  assert (field < length σ) as Hlt by (by eapply lookup_lt_Some).
  assert (σ1 !! field = Some (Store.OObj ps)) as Hf1.
  { unfold σ1. by rewrite lookup_app_l. }
  destruct (assign_lookup σ1 field ps "validation" (Store.VRef (length σ)) Hf1)
    as [Hfield Hother].
  assert (σ0 `prefix_of` Store.assign σ1 field "validation" (Store.VRef (length σ)))
    as Hp'.
  { apply assign_prefix; [|done]. by apply (alloc_prefix σ0 σ). }
  cbn [Store.reify]. rewrite Hfield.
  erewrite (proj2 (reify_props_Some _ _ _)); [done|].
  apply props_related_set.
  - eapply props_related_impl; [done|]. intros v x HR.
    by apply (reify_lift _ v x Hp').
  - cbn [Store.reify]. rewrite Hother by lia.
    unfold σ1. rewrite lookup_app_r, Nat.sub_diag by done. simpl.
    erewrite (proj2 (reify_props_Some _ _ _)); [done|].
    eapply props_related_impl; [done|]. intros v x HR.
    by apply (reify_lift _ v x Hp').
Qed.

End Refinement.

(** On the tree a raw field stands for, the store rendering of the
    localisation fails as [localizeField] does, or leaves at the location of
    the copy an object that stands for the record [localizeField] returns. *)
Lemma localizeField_refines (σ : Store.store) depth name rawField lang raw :
  Store.reify depth σ rawField = Some raw →
  match Store.localizeField σ name rawField lang with
  | (σ', inl t) => localizeField name raw lang = inl t
  | (σ', inr field) =>
      ∃ p, localizeField name raw lang = inr p
        ∧ Store.reify (S (S depth)) σ' (Store.VRef field) = Some (JObj p)
  end.
Proof.
  intros Hraw. unfold Store.localizeField, localizeField. cbn [Store.alloc].
  assert (Store.copy_at σ depth (σ ++ [Store.OObj (Store.own_props σ rawField)])
            (length σ) (own_props raw)) as Hc.
  { split_and!; [by eexists|done|]. eexists. split.
    - by rewrite lookup_app_r, Nat.sub_diag.
    - by apply reify_own_props. }
  pose proof (localizeLabel_refines σ depth _ name lang _ _ Hc) as Hlabel.
  destruct (Store.localizeLabel _ name lang (length σ)) as [σ1 [t|field]].
  - by rewrite Hlabel.
  - destruct Hlabel as (-> & p' & -> & Hc').
    eexists. split; [done|].
    apply (localizeValidation_refines σ), (localizeValues_refines σ), Hc'.
Qed.

(** * Further properties *)

(** ** The language menu *)

Section MenuProperties.

Import LanguageContextMenu.

Variables EN_GB EN_US ES_ES ES_AR : string.

Local Abbreviation locales := [EN_GB; EN_US; ES_ES; ES_AR].
Local Abbreviation items := (allMenuItems EN_GB EN_US ES_ES ES_AR).
Local Abbreviation visible := (visibleMenuItems EN_GB EN_US ES_ES ES_AR).

Lemma enabled_items supported :
  action <$> List.filter (λ item, negb (disabled item)) (items supported) =
  List.filter (includes supported) locales.
Proof.
  unfold allMenuItems, menuItem. simpl.
  by repeat (destruct (includes supported _); simpl).
Qed.

Lemma enabled_items_enabled supported :
  Forall (λ item, disabled item = false)
    (List.filter (λ item, negb (disabled item)) (items supported)).
Proof.
  apply Forall_forall. intros item [_ H]%list_elem_of_In%filter_In.
  by destruct (disabled item).
Qed.

Lemma visibleMenuItems_cases supported :
  (List.filter (includes supported) locales = []
   ∧ visible supported = [menuItem supported EN_GB ENGLISH_UK])
  ∨ (List.filter (includes supported) locales ≠ []
     ∧ visible supported =
       List.filter (λ item, negb (disabled item)) (items supported)).
Proof.
  pose proof (enabled_items supported) as Hen. unfold visibleMenuItems.
  destruct (List.filter (λ item, negb (disabled item)) (items supported))
    as [|item rest] eqn:Hf.
  - left. simpl in Hen. split; [done|]. by simpl.
  - right. split; [|done]. by rewrite <- Hen.
Qed.

(** X1: the menu is never empty, and the languages it offers are those of
    English (UK), English (US), Spanish (Spain) and Spanish (Argentina) that
    are supported, in this order, or English (UK) alone when none of them
    is. *)
Theorem menu_languages supported :
  visibleMenuItems EN_GB EN_US ES_ES ES_AR supported ≠ []
  ∧ action <$> visibleMenuItems EN_GB EN_US ES_ES ES_AR supported =
    match List.filter (includes supported) locales with
    | [] => [EN_GB]
    | offered => offered
    end.
Proof.
  destruct (visibleMenuItems_cases supported) as [[Hnone ->]|[Hsome ->]].
  - by rewrite Hnone.
  - rewrite enabled_items.
    destruct (List.filter (includes supported) locales) eqn:Hf; [done|].
    split; [|done]. intros Hnil.
    apply (f_equal (fmap action)) in Hnil. by rewrite enabled_items, Hf in Hnil.
Qed.

(** X2: the items of the menu are all enabled exactly when one of the four
    languages is supported; otherwise the menu is the single English (UK)
    item, which is still flagged as disabled. *)
Theorem menu_fallback_disabled supported :
  (Forall (λ item, disabled item = false)
     (visibleMenuItems EN_GB EN_US ES_ES ES_AR supported)
   ↔ ∃ locale, locale ∈ locales ∧ locale ∈ supported)
  ∧ ((∀ locale, locale ∈ locales → locale ∉ supported) →
     visibleMenuItems EN_GB EN_US ES_ES ES_AR supported =
     [mkItem ("language-context-menu-" +:+ uniqueId +:+ "-" +:+ EN_GB)
        ENGLISH_UK true EN_GB]).
Proof.
  assert (List.filter (includes supported) locales = [] ↔
          ∀ locale, locale ∈ locales → locale ∉ supported) as Hnone.
  { split.
    - intros Hf locale Hl Hs.
      assert (In locale (List.filter (includes supported) locales)) as Hin.
      { apply filter_In. split; [by apply list_elem_of_In|].
        by apply bool_decide_eq_true. }
      by rewrite Hf in Hin.
    - intros H. destruct (List.filter _ _) as [|locale rest] eqn:Hf; [done|].
      assert (In locale (List.filter (includes supported) locales)) as Hin
        by (rewrite Hf; by left).
      apply filter_In in Hin as [Hl Hs%bool_decide_eq_true].
      destruct (H locale); [by apply list_elem_of_In|done]. }
  assert (includes supported EN_GB = false →
          menuItem supported EN_GB ENGLISH_UK =
          mkItem ("language-context-menu-" +:+ uniqueId +:+ "-" +:+ EN_GB)
            ENGLISH_UK true EN_GB) as Hitem.
  { unfold menuItem. by intros ->. }
  destruct (visibleMenuItems_cases supported) as [[Hf ->]|[Hf ->]].
  - assert (includes supported EN_GB = false) as Hgb.
    { apply bool_decide_eq_false. apply Hnone; [done|set_solver]. }
    rewrite (Hitem Hgb). split; [|done]. split.
    + by intros [? _]%Forall_cons_1.
    + intros (locale & Hl & Hs). by destruct (proj1 Hnone Hf locale).
  - split.
    + split; [|intros; apply enabled_items_enabled].
      intros _. destruct (List.filter (includes supported) locales)
        as [|locale rest] eqn:Hfl; [done|].
      assert (In locale (List.filter (includes supported) locales)) as Hin
        by (rewrite Hfl; by left).
      apply filter_In in Hin as [Hl Hs%bool_decide_eq_true].
      exists locale. split; [by apply list_elem_of_In|done].
    + intros H. by apply Hnone in H.
Qed.


(** X3: the menu depends on which languages are supported, not on their
    order or on repetitions in the list of supported languages. *)
Theorem menu_membership_only supported1 supported2 :
  (∀ locale, locale ∈ supported1 ↔ locale ∈ supported2) →
  visibleMenuItems EN_GB EN_US ES_ES ES_AR supported1 =
  visibleMenuItems EN_GB EN_US ES_ES ES_AR supported2.
Proof.
  intros H.
  assert (∀ locale, includes supported1 locale = includes supported2 locale)
    as Hinc by (intros locale; by apply bool_decide_ext).
  unfold visibleMenuItems, allMenuItems, menuItem. by rewrite !Hinc.
Qed.


Lemma item_id supported item :
  item ∈ visible supported →
  id item = "language-context-menu-" +:+ uniqueId +:+ "-" +:+ action item.
Proof.
  assert (∀ item, item ∈ items supported →
    id item = "language-context-menu-" +:+ uniqueId +:+ "-" +:+ action item)
    as Hall.
  { intros i Hi. unfold allMenuItems in Hi.
    repeat (apply elem_of_cons in Hi as [->|Hi]; [done|]).
    by apply elem_of_nil in Hi. }
  destruct (visibleMenuItems_cases supported) as [[_ ->]|[_ ->]].
  - intros ->%list_elem_of_singleton. done.
  - intros [Hi _]%list_elem_of_In%filter_In. by apply Hall, list_elem_of_In.
Qed.

(** X4: when the four locale codes are pairwise distinct, so are the
    identifiers of the items of the menu. *)
Theorem menu_ids_distinct supported :
  NoDup locales →
  NoDup (id <$> visibleMenuItems EN_GB EN_US ES_ES ES_AR supported).
Proof.
  intros Hnd.
  assert (id <$> visible supported =
          String.append ("language-context-menu-" +:+ uniqueId +:+ "-")
            <$> (action <$> visible supported)) as ->.
  { rewrite <- list_fmap_compose. apply list_fmap_ext.
    intros i item Hi%list_elem_of_lookup_2. rewrite (item_id supported item Hi).
    reflexivity. }
  apply NoDup_fmap_2; [apply String.app_inj|].
  destruct (visibleMenuItems_cases supported) as [[_ ->]|[_ ->]].
  - apply NoDup_singleton.
  - rewrite enabled_items. apply NoDup_ListNoDup, List.NoDup_filter.
    by apply NoDup_ListNoDup.
Qed.


End MenuProperties.

Lemma menu_fallback_disabled_witness :
  LanguageContextMenu.visibleMenuItems "en-GB" "en-US" "es-ES" "es-AR" ["fr-FR"] =
  [LanguageContextMenu.mkItem "language-context-menu-f4d06e4b-0e0c-49c7-ad93-924c5ac89070-en-GB"
     "English (UK)" true "en-GB"].
Proof.
  destruct (menu_fallback_disabled "en-GB" "en-US" "es-ES" "es-AR" ["fr-FR"])
    as [_ H].
  apply H. intros locale Hl Hs.
  apply list_elem_of_singleton in Hs as ->.
  repeat (apply elem_of_cons in Hl as [Hl|Hl]; [discriminate|]).
  by apply elem_of_nil in Hl.
Defined.

Lemma menu_membership_only_witness :
  LanguageContextMenu.visibleMenuItems "en-GB" "en-US" "es-ES" "es-AR" ["es-ES"; "en-GB"; "es-ES"] =
  LanguageContextMenu.visibleMenuItems "en-GB" "en-US" "es-ES" "es-AR" ["en-GB"; "es-ES"].
Proof.
  apply (menu_membership_only "en-GB" "en-US" "es-ES" "es-AR").
  intros locale. rewrite !elem_of_cons. naive_solver.
Defined.

Lemma menu_ids_distinct_witness :
  NoDup (LanguageContextMenu.id <$> LanguageContextMenu.visibleMenuItems "en-GB" "en-US" "es-ES" "es-AR"
                  ["es-AR"; "en-US"; "en-GB"]).
Proof.
  apply (menu_ids_distinct "en-GB" "en-US" "es-ES" "es-AR").
  exact (bool_decide_unpack (NoDup ["en-GB"; "en-US"; "es-ES"; "es-AR"]) I).
Defined.

(** ** Localisation of a field *)

Lemma truthy_present ps k :
  ToBoolean (get_prop ps k) = true → is_Some (lookup_prop k ps).
Proof. unfold get_prop. destruct (lookup_prop k ps); [eauto|done]. Qed.

Lemma set_prop_keys ps k v :
  is_Some (lookup_prop k ps) → (set_prop ps k v).*1 = ps.*1.
Proof.
  induction ps as [|[k0 v0] ps IH]; simpl; [by intros [??]|].
  destruct (String.eqb k0 k); [done|]. intros H. rewrite !fmap_cons.
  by rewrite IH.
Qed.

Lemma localizeLabel_keys name lang field field' :
  localizeLabel name lang field = inr field' → field'.*1 = field.*1.
Proof.
  unfold localizeLabel, label_missing.
  destruct (ToBoolean (get_prop field "label")) eqn:Ht; simpl; [|done].
  repeat case_match; intros [= <-]; [|done].
  by apply set_prop_keys, truthy_present.
Qed.

Lemma localizeValues_keys lang field :
  (localizeValues lang field).*1 = field.*1.
Proof.
  unfold localizeValues.
  destruct (ToBoolean (get_prop field "values")) eqn:Ht; simpl; [|done].
  case_match; [|done]. by apply set_prop_keys, truthy_present.
Qed.

Lemma localizeValidation_keys lang field :
  (localizeValidation lang field).*1 = field.*1.
Proof.
  unfold localizeValidation.
  destruct (ToBoolean (GetOpt (get_prop field "validation") "errorMessage"))
    eqn:Ht; simpl; [|done].
  case_match; [|done]. apply set_prop_keys.
  unfold get_prop in Ht. by destruct (lookup_prop "validation" field).
Qed.

(** X5: localisation neither adds nor drops nor reorders attributes, and
    every attribute other than [label], [values] and [validation] (the type,
    the data key, flags, patterns) keeps its value. *)
Theorem localizeField_passes_through name rawField lang field :
  localizeField name rawField lang = inr field →
  field.*1 = (own_props rawField).*1
  ∧ ∀ k, k ∉ ["label"; "values"; "validation"] →
      get_prop field k = get_prop (own_props rawField) k.
Proof.
  unfold localizeField.
  destruct (localizeLabel _ _ _) as [|field'] eqn:Hl; [done|]. intros [= <-].
  split.
  - rewrite localizeValidation_keys, localizeValues_keys.
    by eapply localizeLabel_keys.
  - intros k Hk.
    rewrite localizeValidation_get, localizeValues_get by set_solver.
    eapply localizeLabel_get; [done|set_solver].
Qed.

Lemma localizeField_passes_through_witness :
  ∃ field,
    localizeField "country" (get_prop (own_props sample_document) "country") "es"
      = inr field
    ∧ field.*1 = ["type"; "label"; "values"; "dataKey"]
    ∧ get_prop field "dataKey" = JStr "country".
Proof.
  eexists. split; [reflexivity|].
  destruct (localizeField_passes_through "country"
              (get_prop (own_props sample_document) "country") "es" _ eq_refl)
    as [Hkeys Hother].
  split; [exact Hkeys|]. apply Hother.
  rewrite !elem_of_cons, elem_of_nil. by intros [|[|[|]]].
Defined.







(** ** Parsing a document *)

Lemma mapEntries_nil_inv lang entries :
  mapEntries lang entries = inr [] → entries = [].
Proof.
  destruct entries as [|entry entries]; [done|]. simpl.
  destruct (fieldDefinitionOf lang entry); [done|].
  by destruct (mapEntries lang entries).
Qed.

(** X9: the parse yields the empty sequence exactly for a document that is
    neither [null] nor [undefined] and has no entries (an empty mapping, an
    empty sequence, an empty string, a number, a boolean). *)
Theorem parse_empty_iff yamlJson lang :
  parseYamlJson yamlJson lang = inr [] ↔ Object_entries yamlJson = inr [].
Proof.
  unfold parseYamlJson. split.
  - destruct (Object_entries yamlJson) as [|entries]; [done|].
    destruct (mapEntries lang entries) as [|fds] eqn:Hm; [done|].
    destruct (validateDataKeys ∅ fds); [done|]. intros [= ->].
    by rewrite (mapEntries_nil_inv _ _ Hm).
  - by intros ->.
Qed.

Lemma mapEntries_inl lang entries t :
  mapEntries lang entries = inl t →
  ∃ pre entry post fds,
    entries = pre ++ entry :: post
    ∧ mapEntries lang pre = inr fds
    ∧ fieldDefinitionOf lang entry = inl t.
Proof.
  induction entries as [|entry entries IH]; [done|]. simpl.
  destruct (fieldDefinitionOf lang entry) as [t'|fd] eqn:Hf.
  - intros [= ->]. by exists [], entry, entries, [].
  - destruct (mapEntries lang entries) as [t'|fds]; [|done].
    intros [= ->]. destruct (IH eq_refl) as (pre & e & post & fds & -> & Hp & He).
    exists (entry :: pre), e, post, (fd :: fds). split; [done|].
    split; [|done]. simpl. by rewrite Hf, Hp.
Qed.

(** X10: a parse fails in one of three ways only: the document is [null]
    or [undefined]; or some entry fails while every entry before it was
    constructed, and the exception is that entry's; or every entry was
    constructed and the exception is the duplicate-key error of the first
    data key that occurs twice. *)
Theorem parse_failure_cases yamlJson lang t :
  parseYamlJson yamlJson lang = inl t →
  Object_entries yamlJson = inl t
  ∨ (∃ pre entry post fds,
       Object_entries yamlJson = inr (pre ++ entry :: post)
       ∧ mapEntries lang pre = inr fds
       ∧ fieldDefinitionOf lang entry = inl t)
  ∨ (∃ entries fds key,
       Object_entries yamlJson = inr entries
       ∧ mapEntries lang entries = inr fds
       ∧ first_duplicate [] (Types.dataKey <$> fds) = Some key
       ∧ t = ThrowError
               (mkError ConfigurationError (duplicate_dataKey key))).
Proof.
  destruct (Object_entries yamlJson) as [t'|entries] eqn:He.
  { unfold parseYamlJson. rewrite He. intros [= ->]. by left. }
  destruct (mapEntries lang entries) as [t'|fds] eqn:Hm.
  - unfold parseYamlJson. rewrite He, Hm. intros [= ->]. right; left.
    destruct (mapEntries_inl _ _ _ Hm) as (pre & entry & post & fds & -> & ? & ?).
    by exists pre, entry, post, fds.
  - erewrite parseYamlJson_entries by done.
    destruct (first_duplicate _ _) as [key|] eqn:Hd; [|done].
    intros [= <-]. right; right. by exists entries, fds, key.
Qed.

Lemma parse_failure_cases_witness :
  ∃ key,
    first_duplicate [] ["x"; "x"] = Some key
    ∧ parseYamlJson duplicate_document "en" =
      inl (ThrowError (mkError ConfigurationError (duplicate_dataKey key))).
Proof.
  destruct (parse_failure_cases duplicate_document "en" _ eq_refl)
    as [H|[(pre & entry & post & fds & He & Hm & Hf)|(entries & fds & key & He & Hm & Hd & Ht)]].
  - discriminate H.
  - exfalso. injection He as He.
    destruct pre as [|e1 [|e2 [|e3 pre]]]; simplify_eq/=.
  - injection He as <-. vm_compute in Hm. injection Hm as <-.
    exists key. split; [exact Hd|]. vm_compute in Hd. injection Hd as <-.
    reflexivity.
Defined.

Lemma truthy_object_false v :
  is_object v = false → ToBoolean v && typeof_object v = false.
Proof. destruct v; simpl; try done; by rewrite andb_false_r. Qed.

Lemma localizeField_untranslated name rawField lang field :
  untranslated rawField = true →
  localizeField name rawField lang = inr field →
  field = own_props rawField.
Proof.
  unfold untranslated. rewrite !andb_true_iff, !negb_true_iff.
  intros [[Hl Hv] He]. unfold localizeField, localizeLabel, label_missing.
  pose proof (truthy_object_false _ Hl) as Hlabel.
  destruct (ToBoolean (get_prop (own_props rawField) "label")); simpl in *; [|done].
  rewrite Hlabel. simpl. intros [= <-].
  assert (localizeValues lang (own_props rawField) = own_props rawField) as ->.
  { unfold localizeValues.
    destruct (get_prop (own_props rawField) "values"); simpl in *; try done;
      by rewrite andb_false_r. }
  unfold localizeValidation.
  by rewrite (truthy_object_false _ He).
Qed.

Lemma mapEntries_untranslated lang1 lang2 entries fds :
  forallb (λ entry, untranslated entry.2) entries = true →
  mapEntries lang1 entries = inr fds →
  mapEntries lang2 entries = inr fds.
Proof.
  revert fds. induction entries as [|[name rawField] entries IH]; intros fds;
    [done|].
  simpl. rewrite andb_true_iff. intros [Hu Hus].
  unfold fieldDefinitionOf.
  destruct (localizeField name rawField lang1) as [|field] eqn:H1; [done|].
  pose proof (localizeField_untranslated _ _ _ _ Hu H1) as ->.
  destruct (localizeField name rawField lang2) as [t|field2] eqn:H2.
  { exfalso. revert H1 H2. unfold localizeField, localizeLabel, label_missing.
    unfold untranslated in Hu. rewrite !andb_true_iff, !negb_true_iff in Hu.
    destruct Hu as [[Hl _] _]. pose proof (truthy_object_false _ Hl) as Hlabel.
    destruct (ToBoolean (get_prop (own_props rawField) "label")); simpl in *; [|done].
    by rewrite Hlabel. }
  pose proof (localizeField_untranslated _ _ _ _ Hu H2) as ->.
  destruct (constructField name (own_props rawField)); [done|].
  destruct (mapEntries lang1 entries) as [|fds1] eqn:Hm; [done|].
  intros [= <-]. by rewrite (IH fds1 Hus eq_refl).
Qed.

(** X11: a document without language mappings parses to the same field
    definitions in every language. *)
Theorem parse_untranslated lang1 lang2 yamlJson entries fds :
  Object_entries yamlJson = inr entries →
  forallb (λ entry, untranslated entry.2) entries = true →
  parseYamlJson yamlJson lang1 = inr fds →
  parseYamlJson yamlJson lang2 = inr fds.
Proof.
  intros He Hu Hp. destruct (parseYamlJson_inr _ _ _ _ He Hp) as [Hm Hnd].
  erewrite parseYamlJson_entries;
    [|done|by eapply mapEntries_untranslated].
  assert (first_duplicate [] (Types.dataKey <$> fds) = None) as ->; [|done].
  apply first_duplicate_None. split; [done|]. by intros k _ ?%elem_of_nil.
Qed.

Lemma parse_untranslated_witness :
  ∃ fds,
    parseYamlJson untranslated_document "en" = inr fds
    ∧ parseYamlJson untranslated_document "fr" = inr fds
    ∧ length fds = 2.
Proof.
  eexists. split; [reflexivity|]. split; [|reflexivity].
  by apply (parse_untranslated "en" "fr" untranslated_document
              (own_props untranslated_document)).
Defined.

(** ** The worlds the hook reaches *)

Section HookInvariants.

Import Hook.

Variable parse : string → thrown + value.
Variable DEFAULT_LOCALE : string.

Local Abbreviation fetchEffect := (Hook.fetchEffect DEFAULT_LOCALE).
Local Abbreviation parseEffect := (Hook.parseEffect parse DEFAULT_LOCALE).
Local Abbreviation activeLanguage := (Hook.activeLanguage DEFAULT_LOCALE).
Local Abbreviation mount := (Hook.mount parse DEFAULT_LOCALE).
Local Abbreviation step := (Hook.step parse DEFAULT_LOCALE).
Local Abbreviation run := (Hook.run parse DEFAULT_LOCALE).

#[local] Arguments Hook.parseEffect : simpl never.
#[local] Arguments Hook.fetchEffect : simpl never.

Lemma mount_eq language :
  mount language =
  mkWorld (mkState [] true None None) language [activeLanguage language]
    [CustomFetch (configPath (activeLanguage language))].
Proof.
  unfold Hook.mount. rewrite fetchEffect_uncached by done.
  by rewrite parseEffect_uncached.
Qed.

Lemma mount_consistent language : consistent (mount language).
Proof.
  rewrite mount_eq. unfold consistent. simpl. split_and!; try done.
  intros lang ->%list_elem_of_singleton. set_solver.
Qed.

Lemma parseEffect_consistent w :
  is_Some (fetchedYaml (state w)) →
  (∀ lang, lang ∈ inFlight w → configPath lang ∈ fetches (calls w)) →
  (∀ fetched, fetchedYaml (state w) = Some fetched →
     configPath (lang fetched) ∈ fetches (calls w)) →
  consistent (parseEffect w).
Proof.
  intros [fetched Hf] Hin Hcached.
  destruct (parseEffect_cached parse DEFAULT_LOCALE w fetched Hf)
    as (Hc & _ & Hi & Hf' & Hl & _).
  unfold consistent. rewrite Hf', Hl, Hi, Hc, fetches_app.
  split_and!; try done.
  - intros lang Hlang. apply elem_of_app. left. by apply Hin.
  - intros ? [= <-]. apply elem_of_app. left. by apply Hcached.
Qed.

Lemma step_consistent w e : consistent w → consistent (step w e).
Proof.
  intros (Hfields & Hloading & Hin & Hcached).
  destruct e as [language'|request outcome].
  - destruct (decide (language' = language w)) as [->|Hne].
    { by rewrite step_language_same. }
    destruct (fetchedYaml (state w)) as [fetched|] eqn:Hf.
    + rewrite step_language_cached by (by rewrite ?Hf).
      apply parseEffect_consistent; simpl; [by rewrite Hf|done|].
      by rewrite Hf.
    + rewrite step_language_uncached by done.
      unfold consistent. simpl. rewrite Hf, fetches_app. simpl.
      split_and!; try done.
      * intros _. by destruct (inFlight w).
      * intros lang [Hl| ->%list_elem_of_singleton]%elem_of_app;
          apply elem_of_app; [left; by apply Hin|right; set_solver].
  - unfold Hook.step. destruct (inFlight w !! request) as [lang|] eqn:Hr;
      [|done].
    assert (∀ l, l ∈ delete request (inFlight w) → l ∈ inFlight w) as Hdel.
    { intros l. apply list_elem_of_delete_inv. }
    destruct outcome as [t|yamlText]; unfold Hook.settle.
    + unfold consistent. simpl. split_and!; try done.
      intros l Hl. by apply Hin, Hdel.
    + apply parseEffect_consistent; simpl; [done| |].
      * intros l Hl. by apply Hin, Hdel.
      * intros ? [= <-]. simpl. apply Hin. by eapply list_elem_of_lookup_2.
Qed.

Lemma run_consistent w events : consistent w → consistent (run w events).
Proof.
  revert w. induction events as [|e events IH]; intros w Hw; [done|].
  simpl. by apply IH, step_consistent.
Qed.

(** X12: from activation on, whatever happens, the fields stay empty as
    long as no document is cached. *)
Theorem no_fields_before_document language events :
  let w := run (mount language) events in
  fetchedYaml (state w) = None → fields (state w) = [].
Proof.
  intros w.
  by destruct (run_consistent _ events (mount_consistent language)) as (H & _).
Qed.

(** X13: from activation on, whenever [loading] is true a request is in
    flight. *)
Theorem loading_has_request language events :
  let w := run (mount language) events in
  loading (state w) = true → inFlight w ≠ [].
Proof.
  intros w.
  by destruct (run_consistent _ events (mount_consistent language))
    as (_ & H & _).
Qed.

(** X14: from activation on, the configuration of every language with a
    request in flight, and that of the language the cached document was
    requested for, is among the paths given to [customFetch]. *)
Theorem requests_were_fetched language events :
  let w := run (mount language) events in
  (∀ lang, lang ∈ inFlight w → configPath lang ∈ fetches (calls w))
  ∧ (∀ fetched, fetchedYaml (state w) = Some fetched →
       configPath (Hook.lang fetched) ∈ fetches (calls w)).
Proof.
  intros w.
  by destruct (run_consistent _ events (mount_consistent language))
    as (_ & _ & H1 & H2).
Qed.

(** X15: a failed fetch is not retried and caches nothing: no call is
    recorded, the request is no longer in flight, the fields and the cached
    document are as before, and [loading] is false. *)
Theorem failed_fetch_not_retried w request lang t :
  inFlight w !! request = Some lang →
  let w' := step w (FetchSettled request (inl t)) in
  calls w' = calls w
  ∧ inFlight w' = delete request (inFlight w)
  ∧ fields (state w') = fields (state w)
  ∧ fetchedYaml (state w') = fetchedYaml (state w)
  ∧ loading (state w') = false
  ∧ language w' = language w.
Proof. intros Hr. unfold Hook.step. by rewrite Hr. Qed.

(** X16: a response is cached under the language it was requested for but
    parsed for the language that is active when it arrives; it replaces
    whatever document was cached. *)
Theorem response_parsed_for_current_language w request lang yamlText :
  inFlight w !! request = Some lang →
  let w' := step w (FetchSettled request (inr yamlText)) in
  fetchedYaml (state w') = Some (mkFetched yamlText lang)
  ∧ calls w' =
    calls w ++ [ParseYamlConfig yamlText (activeLanguage (language w))]
  ∧ inFlight w' = delete request (inFlight w).
Proof.
  intros Hr. unfold Hook.step. rewrite Hr. unfold Hook.settle.
  match goal with |- context [Hook.parseEffect _ _ ?w0] =>
    destruct (parseEffect_cached parse DEFAULT_LOCALE w0 _ eq_refl)
      as (Hc & _ & Hi & Hf & _)
  end.
  split_and!; [exact Hf|exact Hc|exact Hi].
Qed.

(** X17: the effects are keyed on [i18n.language] itself: a change between
    two values that resolve to the same active language (undefined, the
    empty string, the default locale) while nothing is cached requests the
    same configuration a second time. *)
Theorem same_language_fetched_twice language language' :
  language' ≠ language →
  activeLanguage language' = activeLanguage language →
  fetches (calls (run (mount language) [LanguageChanged language'])) =
  [configPath (activeLanguage language); configPath (activeLanguage language)].
Proof.
  intros Hne Heq. unfold Hook.run. cbn [foldl]. rewrite mount_eq.
  rewrite step_language_uncached by done. simpl. by rewrite Heq.
Qed.

End HookInvariants.

Lemma no_fields_before_document_witness :
  Hook.fields
    (Hook.state
       (Hook.run (parse_as sample_document) "en"
          (Hook.mount (parse_as sample_document) "en" (Some "en"))
          [Hook.FetchSettled 0 (inl (ThrowValue JNull));
           Hook.LanguageChanged (Some "es")])) = [].
Proof.
  apply (no_fields_before_document (parse_as sample_document) "en" (Some "en")).
  reflexivity.
Defined.

Lemma loading_has_request_witness :
  Hook.inFlight
    (Hook.run (parse_as sample_document) "en"
       (Hook.mount (parse_as sample_document) "en" (Some "en"))
       [Hook.FetchSettled 0 (inl (ThrowValue JNull));
        Hook.LanguageChanged (Some "es")]) ≠ [].
Proof.
  apply (loading_has_request (parse_as sample_document) "en" (Some "en")).
  reflexivity.
Defined.

Lemma requests_were_fetched_witness :
  "/data/config/fields-en.yaml" ∈ Hook.fetches (Hook.calls cached_world).
Proof.
  destruct (requests_were_fetched (parse_as sample_document) "en" (Some "en")
              [Hook.FetchSettled 0 (inr "fields")]) as [_ H].
  apply (H (Hook.mkFetched "fields" "en")). reflexivity.
Defined.

Lemma failed_fetch_not_retried_witness :
  Hook.calls
    (Hook.step (parse_as sample_document) "en" mounted_world
       (Hook.FetchSettled 0 (inl (ThrowValue JNull)))) =
  Hook.calls mounted_world.
Proof.
  by destruct (failed_fetch_not_retried (parse_as sample_document) "en"
                 mounted_world 0 "en" (ThrowValue JNull) eq_refl) as [H _].
Defined.

Lemma response_parsed_for_current_language_witness :
  let w := Hook.step (parse_as sample_document) "en" mounted_world
             (Hook.LanguageChanged (Some "es")) in
  let w' := Hook.step (parse_as sample_document) "en" w
              (Hook.FetchSettled 0 (inr "fields")) in
  Hook.fetchedYaml (Hook.state w') = Some (Hook.mkFetched "fields" "en")
  ∧ Hook.calls w' =
    Hook.calls w ++ [Hook.ParseYamlConfig "fields" "es"].
Proof.
  intros w w'.
  destruct (response_parsed_for_current_language (parse_as sample_document)
              "en" w 0 "en" "fields" eq_refl) as (H1 & H2 & _).
  split; [exact H1|exact H2].
Defined.

Lemma same_language_fetched_twice_witness :
  Hook.fetches
    (Hook.calls
       (Hook.run (parse_as sample_document) "en"
          (Hook.mount (parse_as sample_document) "en" None)
          [Hook.LanguageChanged (Some "en")])) =
  ["/data/config/fields-en.yaml"; "/data/config/fields-en.yaml"].
Proof.
  apply (same_language_fetched_twice (parse_as sample_document) "en" None
           (Some "en")); [discriminate|reflexivity].
Defined.

Lemma string_app_length a b :
  String.length (a +:+ b) = String.length a + String.length b.
Proof. induction a as [|c a IH]; simpl; [done|]. by rewrite IH. Qed.

Lemma string_app_inv_tail a b t : a +:+ t = b +:+ t → a = b.
Proof.
  revert b. induction a as [|c a IH]; intros [|d b]; simpl; try done.
  - intros H. apply (f_equal String.length) in H. simpl in H.
    rewrite !string_app_length in H. simpl in H. lia.
  - intros H. apply (f_equal String.length) in H. simpl in H.
    rewrite !string_app_length in H. simpl in H. lia.
  - intros [= -> H]. by rewrite (IH b H).
Qed.

(** X18: distinct languages have distinct configuration paths. *)
Theorem configPath_distinct lang1 lang2 :
  lang1 ≠ lang2 → Hook.configPath lang1 ≠ Hook.configPath lang2.
Proof.
  unfold Hook.configPath, Hook.CONFIG_BASE_PATH. intros Hne H. apply Hne.
  apply (string_app_inv_tail _ _ ".yaml").
  apply (String.app_inj "/data/config/fields-"). exact H.
Qed.

Lemma configPath_distinct_witness :
  Hook.configPath "en" ≠ Hook.configPath "es".
Proof. apply configPath_distinct. discriminate. Defined.

(** ** Sharing between the copy and the raw record *)

Lemma store_get_set_prop ps k v k' :
  Store.get_prop (Store.set_prop ps k v) k' =
  if String.eqb k k' then v else Store.get_prop ps k'.
Proof.
  unfold Store.get_prop.
  induction ps as [|[k0 v0] ps IH]; simpl.
  - by destruct (String.eqb k k').
  - destruct (String.eqb_spec k0 k) as [->|Hne]; simpl.
    + by destruct (String.eqb k k').
    + destruct (String.eqb_spec k0 k') as [->|]; [|done].
      by destruct (String.eqb_spec k k').
Qed.

Lemma untouched_assign σ field ps k v :
  k ∈ ["label"; "values"; "validation"] →
  Store.untouched σ field ps → Store.untouched (Store.assign σ field k v) field ps.
Proof.
  intros Hk (ps' & Hf & Hps).
  destruct (assign_lookup σ field ps' k v Hf) as [Hf' _].
  eexists. split; [done|]. intros k' Hk'. rewrite store_get_set_prop.
  destruct (String.eqb_spec k k') as [<-|_]; [done|]. by apply Hps.
Qed.

Lemma untouched_alloc σ field ps o :
  Store.untouched σ field ps → Store.untouched (σ ++ [o]) field ps.
Proof.
  intros (ps' & Hf & Hps). exists ps'. split; [|done].
  rewrite lookup_app_l; [done|]. by eapply lookup_lt_Some.
Qed.

(** X19: the copy that localisation works on is a new object, and it is a
    shallow one: every attribute other than [label], [values] and
    [validation] is the very value of the raw record, the same object when it
    is one. *)
Theorem localizeField_shallow_copy
    (σ : Store.store) name rawField lang σ' field :
  Store.localizeField σ name rawField lang = (σ', inr field) →
  field = length σ
  ∧ ∀ k, k ∉ ["label"; "values"; "validation"] →
      Store.Get σ' (Store.VRef field) k =
      Store.get_prop (Store.own_props σ rawField) k.
Proof.
  unfold Store.localizeField. cbn [Store.alloc].
  set (ps := Store.own_props σ rawField).
  assert (Store.untouched (σ ++ [Store.OObj ps]) (length σ) ps) as Hu.
  { exists ps. split; [|done]. by rewrite lookup_app_r, Nat.sub_diag. }
  destruct (Store.localizeLabel _ name lang (length σ)) as [σ1 [t|f]] eqn:Hl;
    [done|].
  intros [= <- <-].
  pose proof (localizeLabel_field _ _ _ _ _ _ Hl) as ->. split; [done|].
  assert (Store.untouched σ1 (length σ) ps) as Hu1.
  { revert Hl. unfold Store.localizeLabel. repeat case_match; intros [= <-]; try done.
    apply untouched_assign; [set_solver|done]. }
  assert (Store.untouched (Store.localizeValues σ1 lang (length σ)) (length σ) ps)
    as Hu2.
  { unfold Store.localizeValues. case_match; [|done].
    apply untouched_assign; [set_solver|done]. }
  assert (Store.untouched
            (Store.localizeValidation (Store.localizeValues σ1 lang (length σ))
               lang (length σ)) (length σ) ps) as (ps' & Hf & Hps).
  { unfold Store.localizeValidation. case_match; [|done]. cbn [Store.alloc].
    apply untouched_assign; [set_solver|]. by apply untouched_alloc. }
  intros k Hk. rewrite (Get_field _ _ _ _ Hf). by apply Hps.
Qed.

Lemma localizeField_shallow_copy_witness :
  Store.Get
    (Store.localizeField shared_store "address" (Store.VRef 1) "es").1
    (Store.VRef 2) "metadata" = Store.VRef 0.
Proof.
  destruct (localizeField_shallow_copy shared_store "address" (Store.VRef 1)
              "es" _ 2 eq_refl) as [_ H].
  apply H. rewrite !elem_of_cons, elem_of_nil. by intros [|[|[|]]].
Defined.

(** ** The requests the hook makes *)

Section HookRequests.

Import Hook.

Variable parse : string → thrown + value.
Variable DEFAULT_LOCALE : string.

Local Abbreviation activeLanguage := (Hook.activeLanguage DEFAULT_LOCALE).
Local Abbreviation mount := (Hook.mount parse DEFAULT_LOCALE).
Local Abbreviation step := (Hook.step parse DEFAULT_LOCALE).
Local Abbreviation run := (Hook.run parse DEFAULT_LOCALE).

(** X20: a language change while nothing is cached starts a fetch and sets
    [loading], and leaves the fields and the error as they are: the error of
    an earlier failure stays in the state while the new request is in
    flight. *)
Theorem fetch_start_keeps_error w language' :
  fetchedYaml (state w) = None →
  language' ≠ language w →
  let w' := step w (LanguageChanged language') in
  loading (state w') = true
  ∧ error (state w') = error (state w)
  ∧ fields (state w') = fields (state w)
  ∧ inFlight w' = inFlight w ++ [activeLanguage language'].
Proof.
  intros Hf Hne w'. subst w'. by rewrite step_language_uncached.
Qed.

Lemma activeLanguage_nonempty language :
  DEFAULT_LOCALE ≠ "" → activeLanguage language ≠ "".
Proof.
  intros Hd. unfold Hook.activeLanguage. destruct language as [l|]; [|done].
  by destruct (String.eqb_spec l "").
Qed.

Lemma step_fetches w e :
  fetches (calls (step w e)) = fetches (calls w)
  ∨ ∃ language',
      fetches (calls (step w e)) =
      fetches (calls w) ++ [configPath (activeLanguage language')].
Proof.
  destruct (fetchedYaml (state w)) as [fetched|] eqn:Hf.
  { left. apply step_cached. by rewrite Hf. }
  destruct e as [language'|request outcome].
  - destruct (decide (language' = language w)) as [->|Hne].
    { left. by rewrite step_language_same. }
    right. exists language'. rewrite step_language_uncached by done.
    simpl. by rewrite fetches_app.
  - left. unfold Hook.step. destruct (inFlight w !! request); [|done].
    destruct outcome as [t|yamlText]; unfold Hook.settle; [done|].
    match goal with |- context [Hook.parseEffect _ _ ?w0] =>
      destruct (parseEffect_cached parse DEFAULT_LOCALE w0 _ eq_refl)
        as (Hc & _)
    end.
    rewrite Hc, fetches_app. simpl. by rewrite app_nil_r.
Qed.

(** X21: when the default locale is not empty, every path the hook ever
    gives to [customFetch] is the configuration path of a non-empty
    language. *)
Theorem fetched_paths_have_language language events :
  DEFAULT_LOCALE ≠ "" →
  Forall (λ path, ∃ lang, lang ≠ "" ∧ path = configPath lang)
    (fetches (calls (run (mount language) events))).
Proof.
  intros Hd.
  assert (∀ w, Forall (λ path, ∃ lang, lang ≠ "" ∧ path = configPath lang)
                 (fetches (calls w)) →
          Forall (λ path, ∃ lang, lang ≠ "" ∧ path = configPath lang)
                 (fetches (calls (run w events)))) as Hrun.
  { induction events as [|e events IH]; intros w Hw; [done|].
    simpl. apply IH.
    destruct (step_fetches w e) as [->|[language' ->]]; [done|].
    apply Forall_app. split; [done|]. apply Forall_singleton.
    eexists. split; [|done]. by apply activeLanguage_nonempty. }
  apply Hrun. rewrite mount_eq. simpl. apply Forall_singleton.
  eexists. split; [|done]. by apply activeLanguage_nonempty.
Qed.

End HookRequests.

Lemma fetch_start_keeps_error_witness :
  let w := Hook.step (parse_as sample_document) "en" mounted_world
             (Hook.FetchSettled 0 (inl (ThrowValue JNull))) in
  let w' := Hook.step (parse_as sample_document) "en" w
              (Hook.LanguageChanged (Some "es")) in
  Hook.loading (Hook.state w') = true
  ∧ Hook.error (Hook.state w') =
    Some (mkError GenericError "Unknown error loading configuration").
Proof.
  intros w w'.
  destruct (fetch_start_keeps_error (parse_as sample_document) "en" w
              (Some "es") eq_refl) as (H1 & H2 & _); [discriminate|].
  split; [exact H1|exact H2].
Defined.

Lemma fetched_paths_have_language_witness :
  Forall (λ path, ∃ lang, lang ≠ "" ∧ path = Hook.configPath lang)
    (Hook.fetches
       (Hook.calls
          (Hook.run (parse_as sample_document) "en"
             (Hook.mount (parse_as sample_document) "en" (Some ""))
             [Hook.LanguageChanged None]))).
Proof.
  apply (fetched_paths_have_language (parse_as sample_document) "en").
  discriminate.
Defined.

Lemma parse_empty_iff_witness :
  parseYamlJson (JArr []) "en" = inr [] ∧ parseYamlJson (JNum 7) "en" = inr [].
Proof.
  split; by apply parse_empty_iff.
Defined.
